(** * GemRB text layout: TextSpan and TextContainer

    A shallow embedding of [gemrb/core/TextContainer.cpp] and a
    verification of its layout properties.

    Conventions of the embedding.
    - Coordinates and dimensions are integers ([Z]).  [Region.h], which
      fixes their machine widths, is not part of the sources at hand, so no
      wrap-around is modelled.
    - A pointer to a [TextSpan] is an address ([SpanPtr], a natural number, [NULL] is
      [0]); the span objects live in a [Heap].
    - An iterator of the [std::list] of spans is an index into the list,
      [spans.end()] being its length.
    - A failed [assert] and an undefined iterator operation give [Abort];
      the [do ... while] of the layout is run on fuel and gives [OutOfFuel]
      when the fuel does not suffice.
    - Reference counting of palettes and sprites ([acquire]/[release]) has
      no influence on layout and is left out. *)

From Stdlib Require Import ZArith List Bool Lia String PeanoNat.
Import ListNotations.
Local Open Scope Z_scope.

(* ================================================================== *)
(** * Geometry ([Region.h]) *)

Module Point.
Record t : Type := mk { x : Z; y : Z }.
End Point.

Module Size.
Record t : Type := mk { w : Z; h : Z }.

(** Modelled from the spec: [Size::IsEmpty] is declared in [Region.h],
    which is missing from the sources.  A size is empty when it encloses
    no area, that is when one of its dimensions is zero (or negative): such
    a frame is "unset" and a render sizes its zero dimensions to fit. *)
Definition IsEmpty (s : t) : bool := (w s <=? 0) || (h s <=? 0).
End Size.

Module Region.
Record t : Type := mk { x : Z; y : Z; w : Z; h : Z }.

(** [Region()] : the default region, all fields zero.  The layout loop
    relies on it ([else if (layoutRgn.w)] must fail the first time). *)
Definition zero : t := mk 0 0 0 0.

(** [Region(const Point&, const Size&)] *)
Definition make (p : Point.t) (s : Size.t) : t :=
  mk (Point.x p) (Point.y p) (Size.w s) (Size.h s).

(** [Region::Dimensions()] *)
Definition Dimensions (r : t) : Size.t := Size.mk (w r) (h r).

(** Modelled from the spec: [Region::PointInside] is defined in
    [Region.cpp], which is missing from the sources.  "Rectangle contains
    the point": a rectangle [(x,y)-(x+w,y+h)] covers the columns
    [x .. x+w-1] and the rows [y .. y+h-1]. *)
Definition PointInside (r : t) (p : Point.t) : bool :=
  (x r <=? Point.x p) && (Point.x p <? x r + w r) &&
  (y r <=? Point.y p) && (Point.y p <? y r + h r).

(** Modelled from the spec: [Region::InsideRegion] is defined in
    [Region.cpp], which is missing from the sources.  [InsideRegion r rgn]
    is [r.InsideRegion(rgn)]: [r] is "fully contained by" [rgn]. *)
Definition InsideRegion (r rgn : t) : bool :=
  (x rgn <=? x r) && (x r + w r <=? x rgn + w rgn) &&
  (y rgn <=? y r) && (y r + h r <=? y rgn + h rgn).

(** Modelled from the spec: [Region::IntersectsRegion] is defined in
    [Region.cpp], which is missing from the sources.  Two rectangles
    "overlap" when they share a pixel; rectangles that only touch along an
    edge do not (the spec places a span at [(0,40)-(250,60)] right below
    one at [(0,20)-(100,40)]). *)
Definition IntersectsRegion (r rgn : t) : bool :=
  (x r <? x rgn + w rgn) && (x rgn <? x r + w r) &&
  (y r <? y rgn + h rgn) && (y rgn <? y r + h r).
End Region.

(* ================================================================== *)
(** * Collaborators of a span: sprite and font ([Sprite2D.h], [Font.h]) *)

(** The part of a [Sprite2D] the span reads. *)
Record Sprite2D : Type := mkSprite { Width : Z; Height : Z }.

(** A [Font] as the span sees it: the two methods declared in [Font.h]
    that [TextContainer.cpp] calls.  Their bodies ([Font.cpp]) are not
    among the sources, so a font is any pair of such functions.
    [RenderTextAsSprite] takes the text, the requested size and the
    alignment byte. *)
Record Font : Type := mkFont {
  RenderTextAsSprite : string -> Size.t -> Z -> Sprite2D;
  StringSize : string -> Size.t
}.

(* ================================================================== *)
(** * TextSpan *)

Module TextSpan.
Record t : Type := mk {
  text : string;
  font : Font;
  frame : Size.t;
  spanSprite : option Sprite2D  (* [NULL] is [None] *)
}.

(** The constructor [TextSpan(string, fnt, pal)]: the frame is measured. *)
Definition create (string_ : string) (fnt : Font) : t :=
  mk string_ fnt (StringSize fnt string_) None.

(** The constructor [TextSpan(string, fnt, pal, frame)]: the frame is given. *)
Definition create_framed (string_ : string) (fnt : Font) (frame_ : Size.t) : t :=
  mk string_ fnt frame_ None.

(** [void TextSpan::RenderSpan()] *)
Definition RenderSpan (s : t) : t :=
  let sprite := RenderTextAsSprite (font s) (text s) (frame s) 0 in
  (* frame dimensions of 0 just mean size to fit *)
  let w1 := if Size.w (frame s) =? 0 then Width sprite else Size.w (frame s) in
  let h1 := if Size.h (frame s) =? 0 then Height sprite else Size.h (frame s) in
  mk (text s) (font s) (Size.mk w1 h1) (Some sprite).

(** [const Sprite2D* TextSpan::RenderedSpan()] : the span afterwards and
    the sprite returned. *)
Definition RenderedSpan (s : t) : t * option Sprite2D :=
  match spanSprite s with
  | None => let s' := RenderSpan s in (s', spanSprite s')
  | Some sprite => (s, Some sprite)
  end.

(** [const Size& TextSpan::SpanFrame()] : the span afterwards and the
    frame returned. *)
Definition SpanFrame (s : t) : t * Size.t :=
  if Size.IsEmpty (frame s)
  then let s' := RenderSpan s in (s', frame s') (* our true frame is determined by the rendering *)
  else (s, frame s).

(** The operations of a span that the specification names, and a run of
    any number of them. *)
Inductive op : Type := OpRenderSpan | OpRenderedSpan | OpSpanFrame.

Definition step (o : op) (s : t) : t :=
  match o with
  | OpRenderSpan => RenderSpan s
  | OpRenderedSpan => fst (RenderedSpan s)
  | OpSpanFrame => fst (SpanFrame s)
  end.

Definition run (ops : list op) (s : t) : t := fold_left (fun s o => step o s) ops s.
End TextSpan.

(* ================================================================== *)
(** * Outcomes of the container's operations *)

Inductive result (A : Type) : Type :=
| Ok (a : A)      (* the call returns *)
| Abort           (* an [assert] fails or an iterator is misused *)
| OutOfFuel.      (* the layout loop was cut off *)
Arguments Ok {A} a.
Arguments Abort {A}.
Arguments OutOfFuel {A}.

Definition bind {A B : Type} (m : result A) (k : A -> result B) : result B :=
  match m with
  | Ok a => k a
  | Abort => Abort
  | OutOfFuel => OutOfFuel
  end.

Notation "x <- m ;; k" := (bind m (fun x => k))
  (at level 61, m at next level, right associativity).

(* ================================================================== *)
(** * Span objects and the layout cache *)

Definition SpanPtr : Type := nat.
Definition NULL : SpanPtr := 0%nat.

Definition Heap : Type := SpanPtr -> TextSpan.t.

Definition heap_set (hp : Heap) (p : SpanPtr) (s : TextSpan.t) : Heap :=
  fun q => if Nat.eqb q p then s else hp q.

(** [SpanLayout], the [std::map] from span to rectangle: an association
    list kept in key order, which is the order in which the map is
    iterated. *)
Module SpanLayout.
Definition t : Type := list (SpanPtr * Region.t).

Fixpoint find (l : t) (k : SpanPtr) : option Region.t :=
  match l with
  | [] => None
  | (k', r) :: rest => if Nat.eqb k' k then Some r else find rest k
  end.

(** [layout[k] = r] *)
Fixpoint set (k : SpanPtr) (r : Region.t) (l : t) : t :=
  match l with
  | [] => [(k, r)]
  | (k', r') :: rest =>
      if Nat.ltb k k' then (k, r) :: l
      else if Nat.eqb k k' then (k, r) :: rest
      else (k', r') :: set k r rest
  end.

(** [layout[k]] read: an absent key is entered with the default region. *)
Definition index (l : t) (k : SpanPtr) : Region.t * t :=
  match find l k with
  | Some r => (r, l)
  | None => (Region.zero, set k Region.zero l)
  end.
End SpanLayout.

(** [std::find] on the list of spans: the position of the first
    occurrence. *)
Fixpoint index_of (p : SpanPtr) (l : list SpanPtr) : option nat :=
  match l with
  | [] => None
  | q :: rest => if Nat.eqb q p then Some O else option_map S (index_of p rest)
  end.

(** [list::insert] before position [i] and [list::erase] of position [i]. *)
Definition insert_at (i : nat) (p : SpanPtr) (l : list SpanPtr) : list SpanPtr :=
  firstn i l ++ p :: skipn i l.

Definition erase_at (i : nat) (l : list SpanPtr) : list SpanPtr :=
  firstn i l ++ skipn (S i) l.

(* ================================================================== *)
(** * TextContainer *)

(** What [DrawContents] asks of the video driver. *)
Inductive VideoCall : Type :=
| DrawRect (rgn : Region.t)
| BlitSprite (sprite : option Sprite2D) (x y : Z) (clip : Region.t).

Module TextContainer.
(** The fields that layout reads and writes.  The container's font and
    palette serve [AppendText] only, which builds a span and hands it to
    [AppendSpan]. *)
Record t : Type := mk {
  frame : Size.t;
  spans : list SpanPtr;
  layout : SpanLayout.t;
  ExclusionRects : list Region.t
}.

(** The constructor [TextContainer(frame, font, pal)] *)
Definition create (frame_ : Size.t) : t := mk frame_ [] [] [].

Definition with_spans (c : t) (l : list SpanPtr) : t :=
  mk (frame c) l (layout c) (ExclusionRects c).
Definition with_layout (c : t) (l : SpanLayout.t) : t :=
  mk (frame c) (spans c) l (ExclusionRects c).
Definition with_rects (c : t) (l : list Region.t) : t :=
  mk (frame c) (spans c) (layout c) l.

(** The scan of [AddExclusionRect] over the vector of rectangles. *)
Fixpoint add_rect (rect : Region.t) (rects : list Region.t) : list Region.t :=
  match rects with
  | [] => [rect] (* no match found *)
  | e :: rest =>
      if Region.InsideRegion rect e then e :: rest (* already have an encompassing region *)
      else if Region.InsideRegion e rect then rect :: rest (* new region swallows the old, replace it *)
      else e :: add_rect rect rest
  end.

(** [void TextContainer::AddExclusionRect(const Region& rect)] *)
Definition AddExclusionRect (rect : Region.t) (c : t) : result t :=
  if Size.IsEmpty (Region.Dimensions rect) then Abort
  else Ok (with_rects c (add_rect rect (ExclusionRects c))).

(** [const Region* TextContainer::ExcludedRegionForRect(const Region& rect)] *)
Definition ExcludedRegionForRect (c : t) (rect : Region.t) : option Region.t :=
  List.find (fun e => Region.IntersectsRegion rect e) (ExclusionRects c).

(** One pass of the body of the [do ... while (excluded)] of
    [LayoutSpansStartingAt]: the draw point and the candidate region it
    produces. *)
Definition next_candidate (c : t) (spanFrame : Size.t) (drawPoint : Point.t)
    (layoutRgn : Region.t) (excluded : option Region.t) : Point.t * Region.t :=
  let x1 :=
    match excluded with
    | Some e => Region.x e + Region.w e + 1 (* we know that we have to move at least to the right *)
    | None =>
        if Region.w layoutRgn =? 0 then Point.x drawPoint
        else Point.x drawPoint + Size.w spanFrame + 1
    end in
  let drawPoint1 :=
    if negb (x1 =? 0) && (Size.w (frame c) <? x1 + Size.w spanFrame)
    then Point.mk 0 (Point.y drawPoint + Size.h spanFrame) (* move down and back *)
    else Point.mk x1 (Point.y drawPoint) in
  (drawPoint1, Region.make drawPoint1 spanFrame).

(** The [do ... while (excluded)] loop, entered with the current
    [drawPoint], [layoutRgn] and [excluded]. *)
Fixpoint avoid_excluded (fuel : nat) (c : t) (spanFrame : Size.t) (drawPoint : Point.t)
    (layoutRgn : Region.t) (excluded : option Region.t) : result (Point.t * Region.t) :=
  match fuel with
  | O => OutOfFuel
  | S fuel' =>
      let (drawPoint1, layoutRgn1) := next_candidate c spanFrame drawPoint layoutRgn excluded in
      match ExcludedRegionForRect c layoutRgn1 with
      | Some e => avoid_excluded fuel' c spanFrame drawPoint1 layoutRgn1 (Some e)
      | None => Ok (drawPoint1, layoutRgn1)
      end
  end.

(** The [for (; it != spans.end(); it++)] loop of [LayoutSpansStartingAt]
    over the spans from [it] on. *)
Fixpoint layout_spans (fuel : nat) (rest : list SpanPtr) (drawPoint : Point.t)
    (hp : Heap) (c : t) : result (Heap * t) :=
  match rest with
  | [] => Ok (hp, c)
  | span :: rest' =>
      let (s', spanFrame) := TextSpan.SpanFrame (hp span) in
      let hp1 := heap_set hp span s' in
      placed <- avoid_excluded fuel c spanFrame drawPoint Region.zero None ;;
      let c1 := with_layout c (SpanLayout.set span (snd placed) (layout c)) in
      c2 <- AddExclusionRect (snd placed) c1 ;;
      layout_spans fuel rest' (fst placed) hp1 c2
  end.

(** [void TextContainer::LayoutSpansStartingAt(SpanList::const_iterator it)] *)
Definition LayoutSpansStartingAt (fuel : nat) (it : nat) (hp : Heap) (c : t)
    : result (Heap * t) :=
  match nth_error (spans c) it with
  | None => Abort (* assert(it != spans.end()) *)
  | Some span =>
      match it with
      | S before =>
          match nth_error (spans c) before with
          | None => Abort
          | Some prev =>
              (* get the last draw position *)
              let (rgn, lay) := SpanLayout.index (layout c) prev in
              layout_spans fuel (skipn it (spans c))
                (Point.mk (Region.x rgn + Region.w rgn + 1) (Region.y rgn))
                hp (with_layout c lay)
          end
      | O =>
          let (s', f) := TextSpan.SpanFrame (hp span) in
          layout_spans fuel (skipn it (spans c))
            (Point.mk 0 (Size.h f)) (heap_set hp span s') c
      end
  end.

(** [void TextContainer::AppendSpan(TextSpan* span)] *)
Definition AppendSpan (fuel : nat) (span : SpanPtr) (hp : Heap) (c : t)
    : result (Heap * t) :=
  let c1 := with_spans c (spans c ++ [span]) in
  LayoutSpansStartingAt fuel (List.length (spans c)) hp c1.

(** [void TextContainer::InsertSpanAfter(TextSpan* newSpan, const TextSpan* existing)].
    [it] is advanced past [existing] before the insertion and stays on the
    same element, which follows [newSpan] afterwards; when [existing] is
    not in the list [++it] steps past [spans.end()], which is undefined:
    the run ends there. *)
Definition InsertSpanAfter (fuel : nat) (newSpan existing : SpanPtr) (hp : Heap) (c : t)
    : result (Heap * t) :=
  if Nat.eqb existing NULL then Ok (hp, with_spans c (newSpan :: spans c)) (* insert at beginning *)
  else
    match index_of existing (spans c) with
    | None => Abort
    | Some i =>
        let c1 := with_spans c (insert_at (S i) newSpan (spans c)) in
        LayoutSpansStartingAt fuel (S (S i)) hp c1
    end.

(** [TextSpan* TextContainer::RemoveSpan(const TextSpan* span)].
    [spans.erase(it)] gives the position of the removed span, now that of
    its successor; [--] steps to the span before it, which does not exist
    when the first span was removed. *)
Definition RemoveSpan (fuel : nat) (span : SpanPtr) (hp : Heap) (c : t)
    : result (Heap * t * SpanPtr) :=
  match index_of span (spans c) with
  | Some i =>
      let c1 := with_spans c (erase_at i (spans c)) in
      match i with
      | O => Abort
      | S before =>
          st <- LayoutSpansStartingAt fuel before hp c1 ;;
          Ok (st, span)
      end
  | None => Ok (hp, c, NULL)
  end.

(** [const TextSpan* TextContainer::SpanAtPoint(const Point& p) const] *)
Definition SpanAtPoint (c : t) (p : Point.t) : SpanPtr :=
  (* the point we are testing is relative to the container *)
  let rgn := Region.mk 0 0 (Size.w (frame c)) (Size.h (frame c)) in
  if negb (Region.PointInside rgn p) then NULL
  else
    match List.find (fun e => Region.PointInside (snd e) p) (layout c) with
    | Some e => fst e
    | None => NULL
    end.

(** The loop of [DrawContents] over the layout cache. *)
Fixpoint draw_spans (x y : Z) (l : SpanLayout.t) (hp : Heap) : Heap * list VideoCall :=
  match l with
  | [] => (hp, [])
  | (span, r) :: rest =>
      let rgn := Region.mk (Region.x r + x) (Region.y r + y) (Region.w r) (Region.h r) in
      let (s', sprite) := TextSpan.RenderedSpan (hp span) in
      let (hp2, calls) := draw_spans x y rest (heap_set hp span s') in
      (hp2, DrawRect rgn :: BlitSprite sprite (Region.x rgn) (Region.y rgn) rgn :: calls)
  end.

(** [void TextContainer::DrawContents(int x, int y) const] : the heap
    afterwards and the calls made to the video driver, in order. *)
Definition DrawContents (x y : Z) (hp : Heap) (c : t) : Heap * list VideoCall :=
  draw_spans x y (layout c) hp.

(** The mutators of a container, and a run of any number of them. *)
Inductive op : Type :=
| OpAppendSpan (span : SpanPtr)
| OpInsertSpanAfter (newSpan existing : SpanPtr)
| OpRemoveSpan (span : SpanPtr)
| OpAddExclusionRect (rect : Region.t).

Definition step (fuel : nat) (o : op) (st : Heap * t) : result (Heap * t) :=
  match o with
  | OpAppendSpan span => AppendSpan fuel span (fst st) (snd st)
  | OpInsertSpanAfter newSpan existing => InsertSpanAfter fuel newSpan existing (fst st) (snd st)
  | OpRemoveSpan span => r <- RemoveSpan fuel span (fst st) (snd st) ;; Ok (fst r)
  | OpAddExclusionRect rect => c <- AddExclusionRect rect (snd st) ;; Ok (fst st, c)
  end.

Fixpoint run (fuel : nat) (ops : list op) (st : Heap * t) : result (Heap * t) :=
  match ops with
  | [] => Ok st
  | o :: rest => st' <- step fuel o st ;; run fuel rest st'
  end.

(** [TextSpan::~TextSpan()] : the palette is released and then the
    sprite, through [spanSprite] whether or not the span has a sprite;
    for a span that was never rendered this goes through a null
    pointer. *)
Definition destroy_span (s : TextSpan.t) : result unit :=
  match TextSpan.spanSprite s with
  | Some _ => Ok tt
  | None => Abort
  end.

(** The loop of [TextContainer::~TextContainer()] that deletes the spans
    of the sequence, with the spans deleted so far.  [delete] of a null
    pointer does nothing; a span must not be deleted twice. *)
Fixpoint delete_spans (hp : Heap) (l : list SpanPtr) (deleted : list SpanPtr)
    : result (list SpanPtr) :=
  match l with
  | [] => Ok deleted
  | p :: rest =>
      if Nat.eqb p NULL then delete_spans hp rest deleted
      else if existsb (Nat.eqb p) deleted then Abort
      else
        _ <- destroy_span (hp p) ;;
        delete_spans hp rest (p :: deleted)
  end.

(** [TextContainer::~TextContainer()] : the spans that were deleted. *)
Definition destroy (hp : Heap) (c : t) : result (list SpanPtr) :=
  delete_spans hp (spans c) [].
End TextContainer.

(* ================================================================== *)
(** * Concrete containers used in the examples *)

Module Scenario.
Import TextContainer.

(** A font that measures ["second"] at 250x20, ["wide"] at 400x20 and any
    other text at 100x20, and renders a text at its measured size. *)
Definition measure (s : string) : Size.t :=
  if String.eqb s "second" then Size.mk 250 20
  else if String.eqb s "wide" then Size.mk 400 20
  else Size.mk 100 20.

Definition font : Font :=
  mkFont (fun s _ _ => mkSprite (Size.w (measure s)) (Size.h (measure s))) measure.

(** The spans: 1 and 3 measure 100x20, 2 measures 250x20, 4 measures
    400x20, and 5 is a span with an unset frame. *)
Definition heap0 : Heap := fun p =>
  match p with
  | 2%nat => TextSpan.create "second" font
  | 3%nat => TextSpan.create "third" font
  | 4%nat => TextSpan.create "wide" font
  | 5%nat => TextSpan.create_framed "fifth" font (Size.mk 0 0)
  | _ => TextSpan.create "first" font
  end.

(** A font whose sprites are 0 wide and 20 high, a span of it with an
    unset frame, and a span constructed with a frame of negative width. *)
Definition thin_font : Font :=
  mkFont (fun _ _ _ => mkSprite 0 20) (fun _ => Size.mk 0 20).

Definition thin_span : TextSpan.t :=
  TextSpan.create_framed "thin" thin_font (Size.mk 0 0).

Definition negative_span : TextSpan.t :=
  TextSpan.create_framed "first" font (Size.mk (-5) 0).

(** The container of the specification's scenarios. *)
Definition container0 : TextContainer.t := create (Size.mk 300 100).

Definition fuel0 : nat := 16%nat.

(** The final container of a run, when the run returns. *)
Definition final (r : result (Heap * TextContainer.t)) : option TextContainer.t :=
  match r with
  | Ok st => Some (snd st)
  | _ => None
  end.

(** [container0] after spans 1 and 3 were appended, and after span 3 was
    removed again. *)
Definition two_spans : TextContainer.t :=
  mk (Size.mk 300 100) [1%nat; 3%nat]
    [(1%nat, Region.mk 0 20 100 20); (3%nat, Region.mk 101 20 100 20)]
    [Region.mk 0 20 100 20; Region.mk 101 20 100 20].

Definition two_spans_removed : TextContainer.t :=
  mk (Size.mk 300 100) [1%nat]
    [(1%nat, Region.mk 0 40 100 20); (3%nat, Region.mk 101 20 100 20)]
    [Region.mk 0 20 100 20; Region.mk 101 20 100 20; Region.mk 0 40 100 20].

(** [container0] after spans 1, 3 and 2 were appended, and after span 2
    was removed again. *)
Definition three_spans : TextContainer.t :=
  mk (Size.mk 300 100) [1%nat; 3%nat; 2%nat]
    [(1%nat, Region.mk 0 20 100 20); (2%nat, Region.mk 0 40 250 20);
     (3%nat, Region.mk 101 20 100 20)]
    [Region.mk 0 20 100 20; Region.mk 101 20 100 20; Region.mk 0 40 250 20].

Definition three_spans_removed : TextContainer.t :=
  mk (Size.mk 300 100) [1%nat; 3%nat]
    [(1%nat, Region.mk 0 20 100 20); (2%nat, Region.mk 0 40 250 20);
     (3%nat, Region.mk 0 60 100 20)]
    [Region.mk 0 20 100 20; Region.mk 101 20 100 20; Region.mk 0 40 250 20;
     Region.mk 0 60 100 20].

(** [two_spans] after span 2 was inserted behind span 1. *)
Definition two_spans_inserted : TextContainer.t :=
  mk (Size.mk 300 100) [1%nat; 2%nat; 3%nat]
    [(1%nat, Region.mk 0 20 100 20); (2%nat, Region.zero);
     (3%nat, Region.mk 1 0 100 20)]
    [Region.mk 0 20 100 20; Region.mk 101 20 100 20; Region.mk 1 0 100 20].
End Scenario.

(* ================================================================== *)
(** * Measures and predicates used in the statements *)

Module Layout.
Import TextContainer.

(** A row below which no rectangle of [rects] reaches. *)
Definition lowest_bottom (rects : list Region.t) : Z :=
  fold_right (fun e m => Z.max (Region.y e + Region.h e) m) 0 rects.

(** How many rectangles of [rects] have their right edge beyond column [x]. *)
Definition right_edges_beyond (rects : list Region.t) (x : Z) : nat :=
  List.length (filter (fun e => x <? Region.x e + Region.w e) rects).

(** The variant of the exclusion loop at a candidate position: the rows
    left above [lowest_bottom], each worth more than any number of right
    edges, and the right edges still ahead in the current row. *)
Definition loop_measure (c : TextContainer.t) (p : Point.t) : nat :=
  (Z.to_nat (lowest_bottom (ExclusionRects c) - Point.y p)
     * S (List.length (ExclusionRects c))
   + right_edges_beyond (ExclusionRects c) (Point.x p))%nat.

(** Some rectangle of [rects] encompasses [r]. *)
Definition covered (rects : list Region.t) (r : Region.t) : Prop :=
  exists e, In e rects /\ Region.InsideRegion r e = true.

(** The layout cache [lay] agrees with the exclusion rectangles [rects]:
    a cached rectangle starts at a column from zero on and has no negative
    width; it is the default region or lies inside an exclusion rectangle;
    and the rectangles of two spans do not intersect. *)
Record consistent (lay : SpanLayout.t) (rects : list Region.t) : Prop := {
  cached_left : forall k r, SpanLayout.find lay k = Some r ->
      0 <= Region.x r /\ 0 <= Region.w r;
  cached_covered : forall k r, SpanLayout.find lay k = Some r ->
      r = Region.zero \/ covered rects r;
  cached_apart : forall k1 k2 r1 r2, k1 <> k2 ->
      SpanLayout.find lay k1 = Some r1 -> SpanLayout.find lay k2 = Some r2 ->
      Region.IntersectsRegion r1 r2 = false
}.

(** The container [c2] comes after [c1]: what the exclusion rectangles of
    [c1] cover is still covered in [c2], and an entry of the cache of [c2]
    is an entry of the cache of [c1], or the default region, or a rectangle
    that intersects nothing the exclusion rectangles of [c1] cover. *)
Definition laid_out_since (c1 c2 : TextContainer.t) : Prop :=
  (forall r, covered (ExclusionRects c1) r -> covered (ExclusionRects c2) r) /\
  (forall k r, SpanLayout.find (layout c2) k = Some r ->
     SpanLayout.find (layout c1) k = Some r \/ r = Region.zero \/
     forall e, covered (ExclusionRects c1) e -> Region.IntersectsRegion r e = false).

(** The loop is entered at a column from zero on. *)
Definition entered_left (drawPoint : Point.t) (layoutRgn : Region.t)
    (excluded : option Region.t) : Prop :=
  match excluded with
  | Some e => 0 <= Region.x e + Region.w e + 1
  | None => Region.w layoutRgn = 0 /\ 0 <= Point.x drawPoint
  end.

(** Every span of the sequence has a rectangle in the layout cache. *)
Definition all_laid_out (c : TextContainer.t) : Prop :=
  forall p, In p (spans c) -> SpanLayout.find (layout c) p <> None.

(** The spans at the positions below [n] of [c] have in [c'] the
    rectangles they have in [c]. *)
Definition keeps_before (n : nat) (c c' : TextContainer.t) : Prop :=
  forall j p, (j < n)%nat -> nth_error (spans c) j = Some p ->
    SpanLayout.find (layout c') p = SpanLayout.find (layout c) p.

(** Locality of re-layout in the words of the specification: in a
    container of distinct spans that are all laid out, an insertion (at
    the end by [AppendSpan], elsewhere by [InsertSpanAfter]) or a removal
    at position [k] keeps the rectangles of the spans below [k]. *)
Definition locality_as_stated : Prop :=
  forall (fuel : nat) (hp : Heap) (c : TextContainer.t),
    NoDup (spans c) -> all_laid_out c ->
    (forall span hp' c', ~ In span (spans c) ->
       AppendSpan fuel span hp c = Ok (hp', c') ->
       keeps_before (List.length (spans c)) c c') /\
    (forall newSpan existing k hp' c', ~ In newSpan (spans c) ->
       InsertSpanAfter fuel newSpan existing hp c = Ok (hp', c') ->
       nth_error (spans c') k = Some newSpan ->
       keeps_before k c c') /\
    (forall span k ret hp' c', nth_error (spans c) k = Some span ->
       RemoveSpan fuel span hp c = Ok (hp', c', ret) ->
       keeps_before k c c').

(** The span at [p] has a frame that is not empty once [SpanFrame] has
    been asked for it. *)
Definition measurable (hp : Heap) (p : SpanPtr) : Prop :=
  Size.IsEmpty (snd (TextSpan.SpanFrame (hp p))) = false.
End Layout.

(* ================================================================== *)
(** * Further predicates on the layout cache *)

Module Cache.
Import TextContainer.

(** The keys of the cache increase strictly, as a [std::map] is iterated. *)
Fixpoint keys_ordered (lay : SpanLayout.t) : Prop :=
  match lay with
  | [] => True
  | e :: rest =>
      (forall k, In k (map fst rest) -> (fst e < k)%nat) /\ keys_ordered rest
  end.

(** A rectangle stays left of the container's right border, or starts at
    column zero. *)
Definition fits (frame_w : Z) (r : Region.t) : Prop :=
  Region.x r = 0 \/ Region.x r + Region.w r <= frame_w.

(** The rectangle cached for the span at [k] is the default region, or has
    the size of the span's frame, which is not empty. *)
Definition sized (hp : Heap) (k : SpanPtr) (r : Region.t) : Prop :=
  r = Region.zero \/
  (Size.IsEmpty (TextSpan.frame (hp k)) = false /\
   Region.Dimensions r = TextSpan.frame (hp k)).

Record cache_ok (hp : Heap) (c : TextContainer.t) : Prop := {
  cache_ordered : keys_ordered (layout c);
  cache_fits : forall k r, SpanLayout.find (layout c) k = Some r ->
      fits (Size.w (frame c)) r;
  cache_sized : forall k r, SpanLayout.find (layout c) k = Some r -> sized hp k r
}.

(** [r] comes after [rp] in reading order: in a lower row, or in the same
    row right of the right edge of [rp]. *)
Definition reads_after (rp r : Region.t) : Prop :=
  Region.y rp < Region.y r \/
  (Region.y rp = Region.y r /\ Region.x rp + Region.w rp < Region.x r).

(** The column at which the next pass of the exclusion loop starts. *)
Definition entry_column (spanFrame : Size.t) (drawPoint : Point.t)
    (layoutRgn : Region.t) (excluded : option Region.t) : Z :=
  match excluded with
  | Some e => Region.x e + Region.w e + 1
  | None =>
      if Region.w layoutRgn =? 0 then Point.x drawPoint
      else Point.x drawPoint + Size.w spanFrame + 1
  end.

(** The calls that drawing the cache [l] at the offset [(x,y)] amounts to
    when every span has its sprite: per entry, in order, the outline of
    the translated rectangle and the blit of the span's sprite there. *)
Definition calls_of (x y : Z) (hp : Heap) (l : SpanLayout.t) : list VideoCall :=
  flat_map (fun e =>
    let rgn := Region.mk (Region.x (snd e) + x) (Region.y (snd e) + y)
                 (Region.w (snd e)) (Region.h (snd e)) in
    [DrawRect rgn;
     BlitSprite (TextSpan.spanSprite (hp (fst e))) (Region.x rgn) (Region.y rgn) rgn]) l.
End Cache.

(* ================================================================== *)
(** * GlobalTimer: the queue of control animations
      ([gemrb/plugins/Core/GlobalTimer.cpp])

    The vector [animations] holds the references in two parts: the ones
    before position [first_animation] are free for reuse, the ones from
    there on are scheduled.  Each reference is held by the vector alone,
    so the vector is modelled by the list of the values of its elements.
    [GetTime], a macro that reads the clock, is the argument [thisTime].
    An [unsigned long] is an integer from [0] to [ULONG_MAX], a parameter;
    [first_animation] counts positions of the vector and is a natural
    number.  The fade and shake counters of the timer are declared in
    [GlobalTimer.h], which is not among the sources, and are left out. *)

Module GlobalTimer.
Definition CtlPtr : Type := nat.

Record AnimationRef : Type := mkRef { ctlanim : CtlPtr; time : Z }.

Record t : Type := mk {
  first_animation : nat;
  animations : list AnimationRef
}.

(** The loop of [AddAnimation] that inserts the reference before the
    first one with a later time, or at the end. *)
Fixpoint insert_by_time (anim : AnimationRef) (l : list AnimationRef)
    : list AnimationRef :=
  match l with
  | [] => [anim]
  | e :: rest =>
      if time anim <? time e then anim :: e :: rest
      else e :: insert_by_time anim rest
  end.

(** [void GlobalTimer::ClearAnimations()] *)
Definition ClearAnimations (g : t) : t :=
  mk (List.length (animations g)) (animations g).

(** [void GlobalTimer::RemoveAnimation(ControlAnimation* ctlanim)] *)
Definition RemoveAnimation (ctl : CtlPtr) (g : t) : result t :=
  if Nat.ltb (List.length (animations g)) (first_animation g) then Abort
  else
    Ok (mk (first_animation g)
          (firstn (first_animation g) (animations g) ++
           map (fun e => if Nat.eqb (ctlanim e) ctl then mkRef NULL (time e) else e)
             (skipn (first_animation g) (animations g)))).

Section Machine.
Variable ULONG_MAX : Z.
Variable UpdateAnimation : CtlPtr -> t -> t.

(** [void GlobalTimer::AddAnimation(ControlAnimation* ctlanim, unsigned long time)] *)
Definition AddAnimation (ctl : CtlPtr) (time_ thisTime : Z) (g : t) : result t :=
  let time1 := (time_ + thisTime) mod (ULONG_MAX + 1) in
  (* if there are no free animation reference objects,
     alloc one, else take the first free one *)
  g1 <- (if Nat.eqb (first_animation g) 0 then Ok g
         else
           match animations g with
           | [] => Abort
           | _ :: rest => Ok (mk (first_animation g - 1) rest)
           end) ;;
  (* fill in data *)
  let anim := mkRef ctl time1 in
  (* and insert it into list of other anim refs, sorted by time *)
  if Nat.ltb (List.length (animations g1)) (first_animation g1) then Abort
  else
    Ok (mk (first_animation g1)
          (firstn (first_animation g1) (animations g1) ++
           insert_by_time anim (skipn (first_animation g1) (animations g1)))).

(** [void GlobalTimer::UpdateAnimations()] : the timer afterwards and the
    controls whose [UpdateAnimation] was called, in order.  The call goes
    out of the timer and may come back into it; [UpdateAnimation] is what
    it does to the timer. *)
Fixpoint UpdateAnimations (fuel : nat) (thisTime : Z) (g : t)
    : result (t * list CtlPtr) :=
  match fuel with
  | O => OutOfFuel
  | S fuel' =>
      if Nat.eqb (first_animation g) (List.length (animations g)) then Ok (g, [])
      else
        match nth_error (animations g) (first_animation g) with
        | None => Abort
        | Some anim =>
            if Nat.eqb (ctlanim anim) NULL then
              UpdateAnimations fuel' thisTime
                (mk (S (first_animation g)) (animations g))
            else if time anim <=? thisTime then
              let g1 := UpdateAnimation (ctlanim anim) g in
              r <- UpdateAnimations fuel' thisTime
                     (mk (S (first_animation g1)) (animations g1)) ;;
              Ok (fst r, ctlanim anim :: snd r)
            else Ok (g, [])
        end
  end.
End Machine.

(** The scheduled references, and what the queue relies on. *)
Definition live (g : t) : list AnimationRef :=
  skipn (first_animation g) (animations g).

Definition wf (g : t) : Prop :=
  (first_animation g <= List.length (animations g))%nat.

Fixpoint time_ordered (l : list AnimationRef) : Prop :=
  match l with
  | [] => True
  | e :: rest => (forall e', In e' rest -> time e <= time e') /\ time_ordered rest
  end.

(** A reference is to be run at [thisTime]: not cancelled and due. *)
Definition due (thisTime : Z) (e : AnimationRef) : bool :=
  negb (Nat.eqb (ctlanim e) NULL) && (time e <=? thisTime).

(** A callback that does nothing to the timer. *)
Definition inert (UpdateAnimation : CtlPtr -> t -> t) : Prop :=
  forall ctl g, UpdateAnimation ctl g = g.

(** What [RemoveAnimation] makes of a scheduled reference. *)
Definition cancel (ctl : CtlPtr) (e : AnimationRef) : AnimationRef :=
  if Nat.eqb (ctlanim e) ctl then mkRef NULL (time e) else e.

(** A timer with one free reference and two scheduled ones, and the
    largest [unsigned long] of a 32 bit machine. *)
Definition timer0 : t := mk 1 [mkRef 0%nat 0; mkRef 7%nat 10; mkRef 8%nat 20].
Definition ULONG_MAX_32 : Z := 4294967295.
Definition no_callback : CtlPtr -> t -> t := fun _ g => g.
End GlobalTimer.

(* ================================================================== *)
(** * Facts about regions *)

Ltac unfold_geometry :=
  unfold Region.IntersectsRegion, Region.InsideRegion, Region.PointInside,
    Size.IsEmpty, Region.Dimensions, Region.make, Region.zero in *;
  simpl in *.

Ltac bool_to_Z :=
  repeat match goal with
    | H : _ = true |- _ =>
        first [ rewrite andb_true_iff in H | rewrite orb_true_iff in H
              | rewrite Z.ltb_lt in H | rewrite Z.leb_le in H ]
    | H : _ = false |- _ =>
        first [ rewrite andb_false_iff in H | rewrite orb_false_iff in H
              | rewrite Z.ltb_ge in H | rewrite Z.leb_gt in H ]
    end;
  repeat first [ rewrite andb_true_iff | rewrite orb_true_iff
               | rewrite andb_false_iff | rewrite orb_false_iff
               | rewrite Z.ltb_lt | rewrite Z.leb_le
               | rewrite Z.ltb_ge | rewrite Z.leb_gt ].

Ltac geometry := unfold_geometry; bool_to_Z; lia.

Lemma InsideRegion_refl (r : Region.t) : Region.InsideRegion r r = true.
Proof. geometry. Qed.

Lemma InsideRegion_trans (a b c : Region.t) :
  Region.InsideRegion a b = true -> Region.InsideRegion b c = true ->
  Region.InsideRegion a c = true.
Proof. intros. geometry. Qed.

Lemma IntersectsRegion_sym (a b : Region.t) :
  Region.IntersectsRegion a b = Region.IntersectsRegion b a.
Proof.
  destruct (Region.IntersectsRegion b a) eqn:E; geometry.
Qed.

(** A rectangle that misses [e] misses every rectangle inside [e]. *)
Lemma IntersectsRegion_inside (q r e : Region.t) :
  Region.InsideRegion r e = true -> Region.IntersectsRegion q e = false ->
  Region.IntersectsRegion q r = false.
Proof. intros. geometry. Qed.

(** The default region is missed by every rectangle that starts at a
    column right of or at zero. *)
Lemma IntersectsRegion_zero (q : Region.t) :
  0 <= Region.x q -> Region.IntersectsRegion q Region.zero = false.
Proof. intros. geometry. Qed.

(* ================================================================== *)
(** * TextSpan: the frame *)

Section SpanFacts.
Import TextSpan.

Lemma RenderSpan_frame_fixed (s : t) :
  Size.w (frame s) <> 0 -> Size.h (frame s) <> 0 -> frame (RenderSpan s) = frame s.
Proof.
  intros Hw Hh. unfold RenderSpan. simpl.
  apply Z.eqb_neq in Hw, Hh. rewrite Hw, Hh. now destruct (frame s).
Qed.

Lemma step_frame_fixed (o : op) (s : t) :
  Size.w (frame s) <> 0 -> Size.h (frame s) <> 0 -> frame (step o s) = frame s.
Proof.
  intros Hw Hh. destruct o; simpl.
  - now apply RenderSpan_frame_fixed.
  - unfold RenderedSpan. destruct (spanSprite s); simpl; [reflexivity|].
    now apply RenderSpan_frame_fixed.
  - unfold SpanFrame. destruct (Size.IsEmpty (frame s)); simpl; [|reflexivity].
    now apply RenderSpan_frame_fixed.
Qed.

Lemma run_frame_fixed (ops : list op) : forall s : t,
  Size.w (frame s) <> 0 -> Size.h (frame s) <> 0 -> frame (run ops s) = frame s.
Proof.
  induction ops as [|o ops IH]; intros s Hw Hh; [reflexivity|].
  unfold run in *. simpl.
  pose proof (step_frame_fixed o s Hw Hh) as E.
  rewrite IH; rewrite E; auto.
Qed.

(** C9, as stated, fails: [SpanFrame] does not always return a definite
    size.  A span with an unset frame whose font renders a sprite 0 wide
    is rendered and still reports the empty size 0x20; a span constructed
    with the frame (-5, 0) is rendered and reports (-5, 20), empty as
    well. *)
Lemma SpanFrame_returns_empty_size :
  (Size.IsEmpty (frame Scenario.thin_span) = true /\
   snd (SpanFrame Scenario.thin_span) = Size.mk 0 20 /\
   Size.IsEmpty (snd (SpanFrame Scenario.thin_span)) = true) /\
  (Size.IsEmpty (frame Scenario.negative_span) = true /\
   snd (SpanFrame Scenario.negative_span) = Size.mk (-5) 20 /\
   Size.IsEmpty (snd (SpanFrame Scenario.negative_span)) = true).
Proof. vm_compute. repeat split. Qed.

(** C9, amended.  Once both dimensions of a span's frame are non-zero, no
    run of [RenderSpan], [RenderedSpan] and [SpanFrame] changes the frame.
    A render stores the rendered sprite and sets each zero dimension of
    the frame to that of the sprite, and the first [RenderedSpan] is such
    a render.  [SpanFrame] returns the frame the span has afterwards,
    rendering first exactly when the frame is empty; the size it returns
    is non-empty exactly when each dimension of the frame is positive, or
    is zero while that dimension of the rendered sprite is positive. *)
Theorem span_frame_invariant (s : t) :
  let sprite := RenderTextAsSprite (font s) (text s) (frame s) 0 in
  (Size.w (frame s) <> 0 -> Size.h (frame s) <> 0 ->
   forall ops, frame (run ops s) = frame s) /\
  (spanSprite (RenderSpan s) = Some sprite /\
   Size.w (frame (RenderSpan s)) =
     (if Size.w (frame s) =? 0 then Width sprite else Size.w (frame s)) /\
   Size.h (frame (RenderSpan s)) =
     (if Size.h (frame s) =? 0 then Height sprite else Size.h (frame s)) /\
   (spanSprite s = None -> RenderedSpan s = (RenderSpan s, Some sprite))) /\
  (snd (SpanFrame s) = frame (fst (SpanFrame s)) /\
   (Size.IsEmpty (frame s) = true -> fst (SpanFrame s) = RenderSpan s) /\
   (Size.IsEmpty (frame s) = false -> fst (SpanFrame s) = s) /\
   (Size.IsEmpty (snd (SpanFrame s)) = false <->
    (0 < Size.w (frame s) \/ (Size.w (frame s) = 0 /\ 0 < Width sprite)) /\
    (0 < Size.h (frame s) \/ (Size.h (frame s) = 0 /\ 0 < Height sprite)))).
Proof.
  intro sprite. split; [|split].
  - intros Hw Hh ops. now apply run_frame_fixed.
  - repeat split; try reflexivity.
    intro E. unfold RenderedSpan. now rewrite E.
  - split; [|split; [|split]].
    + unfold SpanFrame. now destruct (Size.IsEmpty (frame s)).
    + unfold SpanFrame. intro E. now rewrite E.
    + unfold SpanFrame. intro E. now rewrite E.
    + unfold SpanFrame.
      destruct (Size.IsEmpty (frame s)) eqn:E; cbn [snd fst].
      * unfold RenderSpan; cbn [frame]. fold sprite.
        unfold Size.IsEmpty in *; cbn [Size.w Size.h] in *.
        destruct (Z.eqb_spec (Size.w (frame s)) 0),
                 (Z.eqb_spec (Size.h (frame s)) 0);
          split; intro H; bool_to_Z; lia.
      * unfold Size.IsEmpty in *. split; intro H; bool_to_Z; lia.
Qed.

(** The frame of the measured span 1 of the examples survives three
    operations; the unset span 5 gets the size of its sprite, which is
    not empty. *)
Lemma span_frame_invariant_witness :
  frame (run [OpSpanFrame; OpRenderSpan; OpRenderedSpan] (Scenario.heap0 1%nat))
    = Size.mk 100 20 /\
  fst (SpanFrame (Scenario.heap0 5%nat)) = RenderSpan (Scenario.heap0 5%nat) /\
  Size.IsEmpty (snd (SpanFrame (Scenario.heap0 5%nat))) = false.
Proof.
  split; [|split].
  - apply (proj1 (span_frame_invariant (Scenario.heap0 1%nat))); simpl; lia.
  - apply (proj1 (proj2 (proj2 (proj2 (span_frame_invariant (Scenario.heap0 5%nat)))))).
    reflexivity.
  - apply (proj2 (proj2 (proj2 (proj2 (span_frame_invariant (Scenario.heap0 5%nat)))))).
    simpl. lia.
Defined.
End SpanFacts.

(* ================================================================== *)
(** * TextContainer: hit test and the scenarios of the specification *)

Section ContainerExamples.
Import TextContainer Scenario.

(** C10. A point outside the container's own rectangle, [(0,0)] with the
    size of the frame, is answered with [NULL] whatever the layout cache
    holds. *)
Theorem SpanAtPoint_outside_frame (c : TextContainer.t) (p : Point.t) :
  Region.PointInside (Region.mk 0 0 (Size.w (frame c)) (Size.h (frame c))) p = false ->
  SpanAtPoint c p = NULL.
Proof.
  intro H. unfold SpanAtPoint. now rewrite H.
Qed.

(** Span 4 is 400 wide and is laid out at [(0,20)] in the container of
    width 300: the point [(350,30)] lies in its rectangle and outside the
    container, and no span is found there. *)
Lemma SpanAtPoint_outside_frame_witness :
  exists c r,
    final (run fuel0 [OpAppendSpan 4%nat] (heap0, container0)) = Some c /\
    SpanLayout.find (layout c) 4%nat = Some r /\
    Region.PointInside r (Point.mk 350 30) = true /\
    SpanAtPoint c (Point.mk 350 30) = NULL.
Proof.
  eexists. eexists. split; [vm_compute; reflexivity|].
  split; [reflexivity|]. split; [reflexivity|].
  apply SpanAtPoint_outside_frame. reflexivity.
Defined.

(** C7. Frame 300x100, no exclusion rectangle, spans measured 100x20 and
    250x20 appended in this order: the first is committed at [(0,20)], the
    second wraps to [(0,40)]. *)
Theorem scenario_second_span_wraps :
  snd (TextSpan.SpanFrame (heap0 1%nat)) = Size.mk 100 20 /\
  snd (TextSpan.SpanFrame (heap0 2%nat)) = Size.mk 250 20 /\
  option_map layout
    (final (run fuel0 [OpAppendSpan 1%nat; OpAppendSpan 2%nat] (heap0, container0)))
  = Some [(1%nat, Region.mk 0 20 100 20); (2%nat, Region.mk 0 40 250 20)].
Proof. repeat split; vm_compute; reflexivity. Qed.

(** C8. The same container with the exclusion rectangle [(0,20)] 50x20
    added first: the span measured 100x20 is committed at [(51,20)]. *)
Theorem scenario_span_after_exclusion :
  option_map layout
    (final (run fuel0 [OpAddExclusionRect (Region.mk 0 20 50 20); OpAppendSpan 1%nat]
              (heap0, container0)))
  = Some [(1%nat, Region.mk 51 20 100 20)].
Proof. vm_compute; reflexivity. Qed.

(** C3 on the code: [InsertSpanAfter] does not lay the new span out.
    Inserted at the front it gets no entry in the layout cache; inserted
    after the last span the call aborts; inserted after an inner span it
    is only entered with the default region when the spans behind it are
    laid out, and is not in the sequence of exclusion rectangles. *)
Theorem InsertSpanAfter_leaves_new_span_unplaced :
  option_map (fun c => (spans c, SpanLayout.find (layout c) 2%nat))
    (final (run fuel0 [OpAppendSpan 1%nat; OpInsertSpanAfter 2%nat NULL] (heap0, container0)))
  = Some ([2%nat; 1%nat], None) /\
  run fuel0 [OpAppendSpan 1%nat; OpAppendSpan 3%nat; OpInsertSpanAfter 2%nat 3%nat]
    (heap0, container0) = Abort /\
  option_map (fun c => (spans c, SpanLayout.find (layout c) 2%nat))
    (final (run fuel0 [OpAppendSpan 1%nat; OpAppendSpan 3%nat; OpInsertSpanAfter 2%nat 1%nat]
              (heap0, container0)))
  = Some ([1%nat; 2%nat; 3%nat], Some Region.zero).
Proof. repeat split; vm_compute; reflexivity. Qed.

(** C4 on the code: after [RemoveSpan] the removed span is out of the
    sequence but still in the layout cache, so it is found by
    [SpanAtPoint] and drawn by [DrawContents]. *)
Theorem RemoveSpan_keeps_layout_entry :
  exists c,
    final (run fuel0 [OpAppendSpan 1%nat; OpAppendSpan 3%nat; OpRemoveSpan 3%nat]
             (heap0, container0)) = Some c /\
    spans c = [1%nat] /\
    SpanLayout.find (layout c) 3%nat = Some (Region.mk 101 20 100 20) /\
    SpanAtPoint c (Point.mk 150 30) = 3%nat /\
    In (DrawRect (Region.mk 101 20 100 20)) (snd (DrawContents 0 0 heap0 c)).
Proof.
  eexists. split; [vm_compute; reflexivity|].
  repeat split; try reflexivity.
  vm_compute. right. right. left. reflexivity.
Qed.

(** C5 on the code: two rectangles next to each other, then a rectangle
    over both.  The scan stops at the first rectangle it replaces, and the
    second stays in the set though it lies strictly inside the new one. *)
Theorem AddExclusionRect_keeps_swallowed_rect :
  option_map ExclusionRects
    (final (run fuel0 [OpAddExclusionRect (Region.mk 0 0 10 10);
                       OpAddExclusionRect (Region.mk 20 0 10 10);
                       OpAddExclusionRect (Region.mk 0 0 30 10)] (heap0, container0)))
  = Some [Region.mk 0 0 30 10; Region.mk 20 0 10 10] /\
  Region.InsideRegion (Region.mk 20 0 10 10) (Region.mk 0 0 30 10) = true /\
  Region.InsideRegion (Region.mk 0 0 30 10) (Region.mk 20 0 10 10) = false.
Proof. repeat split; vm_compute; reflexivity. Qed.
End ContainerExamples.

(* ================================================================== *)
(** * The exclusion loop terminates *)

Section LoopTermination.
Import TextContainer Layout.

Lemma avoid_excluded_S (fuel : nat) (c : TextContainer.t) (spanFrame : Size.t)
    (drawPoint : Point.t) (layoutRgn : Region.t) (excluded : option Region.t) :
  avoid_excluded (S fuel) c spanFrame drawPoint layoutRgn excluded =
  let (drawPoint1, layoutRgn1) := next_candidate c spanFrame drawPoint layoutRgn excluded in
  match ExcludedRegionForRect c layoutRgn1 with
  | Some e => avoid_excluded fuel c spanFrame drawPoint1 layoutRgn1 (Some e)
  | None => Ok (drawPoint1, layoutRgn1)
  end.
Proof. reflexivity. Qed.

Lemma ExcludedRegionForRect_Some (c : TextContainer.t) (rect e : Region.t) :
  ExcludedRegionForRect c rect = Some e ->
  In e (ExclusionRects c) /\ Region.IntersectsRegion rect e = true.
Proof. unfold ExcludedRegionForRect. apply find_some. Qed.

Lemma ExcludedRegionForRect_None (c : TextContainer.t) (rect : Region.t) :
  ExcludedRegionForRect c rect = None ->
  forall e, In e (ExclusionRects c) -> Region.IntersectsRegion rect e = false.
Proof.
  unfold ExcludedRegionForRect. intros H e He.
  exact (find_none _ _ H e He).
Qed.

Lemma lowest_bottom_bound (rects : list Region.t) (e : Region.t) :
  In e rects -> Region.y e + Region.h e <= lowest_bottom rects.
Proof.
  induction rects as [|a l IH]; simpl; [tauto|].
  intros [->|H]; [lia|]. specialize (IH H). lia.
Qed.

Lemma right_edges_beyond_le (rects : list Region.t) :
  (right_edges_beyond rects 0 <= List.length rects)%nat.
Proof. unfold right_edges_beyond. apply filter_length_le. Qed.

Lemma right_edges_beyond_mono (rects : list Region.t) (x x' : Z) :
  x <= x' -> (right_edges_beyond rects x' <= right_edges_beyond rects x)%nat.
Proof.
  intro Hx. unfold right_edges_beyond.
  induction rects as [|a l IH]; simpl; [lia|].
  destruct (Z.ltb_spec x' (Region.x a + Region.w a));
    destruct (Z.ltb_spec x (Region.x a + Region.w a)); simpl; lia.
Qed.

(** Stepping past the right edge of a rectangle leaves fewer right edges
    ahead. *)
Lemma right_edges_beyond_lt (rects : list Region.t) (e : Region.t) (x x' : Z) :
  In e rects -> x < Region.x e + Region.w e -> Region.x e + Region.w e < x' ->
  (right_edges_beyond rects x' < right_edges_beyond rects x)%nat.
Proof.
  intros He Hx Hx'.
  induction rects as [|a l IH]; simpl in *; [tauto|].
  assert (Hm := right_edges_beyond_mono l x x').
  unfold right_edges_beyond in *. simpl.
  destruct He as [->|He].
  - destruct (Z.ltb_spec x' (Region.x e + Region.w e));
      destruct (Z.ltb_spec x (Region.x e + Region.w e)); simpl; lia.
  - specialize (IH He).
    destruct (Z.ltb_spec x' (Region.x a + Region.w a));
      destruct (Z.ltb_spec x (Region.x a + Region.w a)); simpl; lia.
Qed.

(** Each further pass of the loop lowers the variant. *)
Lemma loop_measure_decreases (c : TextContainer.t) (spanFrame : Size.t)
    (drawPoint : Point.t) (e : Region.t) :
  0 < Size.h spanFrame ->
  ExcludedRegionForRect c (Region.make drawPoint spanFrame) = Some e ->
  (loop_measure c
     (fst (next_candidate c spanFrame drawPoint (Region.make drawPoint spanFrame) (Some e)))
   < loop_measure c drawPoint)%nat.
Proof.
  intros Hh Hex. apply ExcludedRegionForRect_Some in Hex. destruct Hex as [Hin Hint].
  pose proof (lowest_bottom_bound _ _ Hin) as Hb.
  assert (Hx : Point.x drawPoint < Region.x e + Region.w e) by geometry.
  assert (Hy : Point.y drawPoint < Region.y e + Region.h e) by geometry.
  unfold next_candidate, loop_measure.
  set (x1 := Region.x e + Region.w e + 1).
  set (B := lowest_bottom (ExclusionRects c)) in *.
  destruct (negb (x1 =? 0) && (Size.w (frame c) <? x1 + Size.w spanFrame)); simpl.
  - pose proof (right_edges_beyond_le (ExclusionRects c)) as Hc.
    assert (Z.to_nat (B - (Point.y drawPoint + Size.h spanFrame)) + 1
            <= Z.to_nat (B - Point.y drawPoint))%nat by lia.
    nia.
  - assert (right_edges_beyond (ExclusionRects c) x1
            < right_edges_beyond (ExclusionRects c) (Point.x drawPoint))%nat.
    { apply right_edges_beyond_lt with e; auto. subst x1; lia. }
    lia.
Qed.

(** With more fuel than the variant of its first candidate, the loop
    returns a candidate that no exclusion rectangle intersects. *)
Lemma avoid_excluded_enough_fuel (c : TextContainer.t) (spanFrame : Size.t) :
  0 < Size.h spanFrame ->
  forall (fuel : nat) (drawPoint : Point.t) (layoutRgn : Region.t)
         (excluded : option Region.t),
    (loop_measure c (fst (next_candidate c spanFrame drawPoint layoutRgn excluded))
     < fuel)%nat ->
    exists drawPoint1,
      avoid_excluded fuel c spanFrame drawPoint layoutRgn excluded
        = Ok (drawPoint1, Region.make drawPoint1 spanFrame) /\
      ExcludedRegionForRect c (Region.make drawPoint1 spanFrame) = None.
Proof.
  intro Hh. induction fuel as [|fuel IH]; intros drawPoint layoutRgn excluded Hm; [lia|].
  rewrite avoid_excluded_S.
  destruct (next_candidate c spanFrame drawPoint layoutRgn excluded) as [dp1 r1] eqn:En.
  assert (Er : r1 = Region.make dp1 spanFrame).
  { unfold next_candidate in En. now inversion En. }
  subst r1. simpl in Hm.
  destruct (ExcludedRegionForRect c (Region.make dp1 spanFrame)) as [e|] eqn:Ee.
  - apply IH.
    pose proof (loop_measure_decreases c spanFrame dp1 e Hh Ee). lia.
  - exists dp1. auto.
Qed.

(** A run of the loop that returned is repeated by any run on more fuel. *)
Lemma avoid_excluded_fuel_mono (c : TextContainer.t) (spanFrame : Size.t) :
  forall (f f' : nat) (dp : Point.t) (lr : Region.t) (ex : option Region.t)
         (res : Point.t * Region.t),
    avoid_excluded f c spanFrame dp lr ex = Ok res -> (f <= f')%nat ->
    avoid_excluded f' c spanFrame dp lr ex = Ok res.
Proof.
  induction f as [|f IH]; intros f' dp lr ex res H Hle; [discriminate|].
  destruct f' as [|f']; [lia|]. rewrite avoid_excluded_S in *.
  destruct (next_candidate c spanFrame dp lr ex) as [p r].
  destruct (ExcludedRegionForRect c r); [apply IH; [exact H|lia]|exact H].
Qed.

(** C6. For a span whose frame has positive width and height and any
    list of exclusion rectangles, the exclusion loop of the layout, entered
    as [LayoutSpansStartingAt] enters it at any draw point, returns: from
    some amount of fuel on it gives one and the same candidate, which is
    the span's frame at the final draw point and intersects no exclusion
    rectangle. *)
Theorem exclusion_loop_terminates (c : TextContainer.t) (spanFrame : Size.t)
    (drawPoint : Point.t) :
  0 < Size.w spanFrame -> 0 < Size.h spanFrame ->
  exists (fuel : nat) (drawPoint1 : Point.t),
    (forall fuel', (fuel <= fuel')%nat ->
       avoid_excluded fuel' c spanFrame drawPoint Region.zero None
         = Ok (drawPoint1, Region.make drawPoint1 spanFrame)) /\
    ExcludedRegionForRect c (Region.make drawPoint1 spanFrame) = None /\
    (forall e, In e (ExclusionRects c) ->
       Region.IntersectsRegion (Region.make drawPoint1 spanFrame) e = false).
Proof.
  intros _ Hh.
  set (n := S (loop_measure c
                 (fst (next_candidate c spanFrame drawPoint Region.zero None)))).
  destruct (avoid_excluded_enough_fuel c spanFrame Hh n drawPoint Region.zero None)
    as [dp1 [E1 E2]]; [subst n; lia|].
  exists n, dp1. split; [|split; [exact E2|now apply ExcludedRegionForRect_None]].
  intros fuel' Hf. exact (avoid_excluded_fuel_mono c spanFrame _ _ _ _ _ _ E1 Hf).
Qed.
End LoopTermination.

(* ================================================================== *)
(** * The layout cache and the exclusion rectangles *)

Section CacheFacts.
Import TextContainer Layout.

Lemma find_set (k k' : SpanPtr) (r : Region.t) (l : SpanLayout.t) :
  SpanLayout.find (SpanLayout.set k r l) k' =
  if Nat.eqb k k' then Some r else SpanLayout.find l k'.
Proof.
  induction l as [|[q rq] l IH]; simpl.
  - reflexivity.
  - destruct (Nat.ltb k q) eqn:Elt; [reflexivity|].
    destruct (Nat.eqb_spec k q) as [->|Hkq]; simpl.
    + destruct (Nat.eqb q k'); reflexivity.
    + rewrite IH. destruct (Nat.eqb_spec q k') as [->|Hq]; [|reflexivity].
      destruct (Nat.eqb_spec k k'); [contradiction|reflexivity].
Qed.

Lemma find_set_same (k : SpanPtr) (r : Region.t) (l : SpanLayout.t) :
  SpanLayout.find (SpanLayout.set k r l) k = Some r.
Proof. rewrite find_set. now rewrite Nat.eqb_refl. Qed.

Lemma find_set_other (k k' : SpanPtr) (r : Region.t) (l : SpanLayout.t) :
  k <> k' -> SpanLayout.find (SpanLayout.set k r l) k' = SpanLayout.find l k'.
Proof.
  intro H. rewrite find_set. destruct (Nat.eqb_spec k k'); [contradiction|reflexivity].
Qed.

(** Reading [layout[k]] gives the cached rectangle, or enters the default
    region. *)
Lemma index_cases (l l' : SpanLayout.t) (k : SpanPtr) (r : Region.t) :
  SpanLayout.index l k = (r, l') ->
  (SpanLayout.find l k = Some r /\ l' = l) \/
  (SpanLayout.find l k = None /\ r = Region.zero /\ l' = SpanLayout.set k Region.zero l).
Proof.
  unfold SpanLayout.index. destruct (SpanLayout.find l k); intro H; inversion H; auto.
Qed.

Lemma covered_in (rects : list Region.t) (e : Region.t) :
  In e rects -> covered rects e.
Proof. intro H. exists e. split; [exact H|apply InsideRegion_refl]. Qed.

(** [AddExclusionRect] loses no cover and covers the new rectangle. *)
Lemma add_rect_covers_old (rect r : Region.t) (rects : list Region.t) :
  covered rects r -> covered (add_rect rect rects) r.
Proof.
  intros [e [He Hr]]. induction rects as [|a l IH]; simpl in *; [tauto|].
  destruct (Region.InsideRegion rect a) eqn:E1.
  - exists e. auto.
  - destruct (Region.InsideRegion a rect) eqn:E2.
    + destruct He as [->|He].
      * exists rect. split; [now left|]. now apply InsideRegion_trans with e.
      * exists e. split; [now right|exact Hr].
    + destruct He as [->|He].
      * exists e. split; [now left|exact Hr].
      * destruct (IH He) as [e' [He' Hr']]. exists e'. split; [now right|exact Hr'].
Qed.

Lemma add_rect_covers_new (rect : Region.t) (rects : list Region.t) :
  covered (add_rect rect rects) rect.
Proof.
  induction rects as [|a l IH]; simpl.
  - apply covered_in. now left.
  - destruct (Region.InsideRegion rect a) eqn:E1.
    + exists a. split; [now left|exact E1].
    + destruct (Region.InsideRegion a rect) eqn:E2.
      * apply covered_in. now left.
      * destruct IH as [e [He Hr]]. exists e. split; [now right|exact Hr].
Qed.

(** A rectangle that intersects no exclusion rectangle intersects nothing
    they cover. *)
Lemma misses_covered (rects : list Region.t) (q r : Region.t) :
  (forall e, In e rects -> Region.IntersectsRegion q e = false) ->
  covered rects r -> Region.IntersectsRegion q r = false.
Proof.
  intros H [e [He Hr]]. apply IntersectsRegion_inside with e; auto.
Qed.

Lemma laid_out_since_refl (c : TextContainer.t) : laid_out_since c c.
Proof. split; auto. Qed.

Lemma laid_out_since_trans (c1 c2 c3 : TextContainer.t) :
  laid_out_since c1 c2 -> laid_out_since c2 c3 -> laid_out_since c1 c3.
Proof.
  intros [H12 L12] [H23 L23]. split; [auto|].
  intros k r Hk. destruct (L23 k r Hk) as [H|[H|H]]; auto.
Qed.
End CacheFacts.

(* ================================================================== *)
(** * Layout keeps the cache consistent *)

Section LayoutInvariant.
Import TextContainer Layout.

Lemma next_candidate_left (c : TextContainer.t) (spanFrame : Size.t)
    (drawPoint p : Point.t) (layoutRgn r : Region.t) (excluded : option Region.t) :
  next_candidate c spanFrame drawPoint layoutRgn excluded = (p, r) ->
  r = Region.make p spanFrame /\
  (entered_left drawPoint layoutRgn excluded -> 0 <= Point.x p).
Proof.
  unfold next_candidate. intro H. injection H as Hp Hr. subst p r.
  split; [reflexivity|].
  intro Hent. destruct excluded as [e|]; simpl in Hent.
  - destruct (negb _ && _); simpl; lia.
  - destruct Hent as [Hw Hx]. rewrite Hw. simpl.
    destruct (negb _ && _); simpl; lia.
Qed.

(** What the exclusion loop returns: the span's frame at the final draw
    point, intersecting no exclusion rectangle, and not left of column
    zero when the loop was entered there. *)
Lemma avoid_excluded_Ok (c : TextContainer.t) (spanFrame : Size.t) :
  forall (fuel : nat) (drawPoint : Point.t) (layoutRgn : Region.t)
         (excluded : option Region.t) (p : Point.t) (r : Region.t),
    avoid_excluded fuel c spanFrame drawPoint layoutRgn excluded = Ok (p, r) ->
    r = Region.make p spanFrame /\
    ExcludedRegionForRect c r = None /\
    (entered_left drawPoint layoutRgn excluded -> 0 <= Point.x p).
Proof.
  induction fuel as [|fuel IH]; intros drawPoint layoutRgn excluded p r H; [discriminate|].
  rewrite avoid_excluded_S in H.
  destruct (next_candidate c spanFrame drawPoint layoutRgn excluded) as [p1 r1] eqn:En.
  apply next_candidate_left in En. destruct En as [Er1 Hleft].
  destruct (ExcludedRegionForRect c r1) as [e|] eqn:Ee.
  - destruct (IH _ _ _ _ _ H) as [Hr [Hnone Hx]].
    split; [exact Hr|]. split; [exact Hnone|].
    intro Hent. apply Hx. simpl.
    apply ExcludedRegionForRect_Some in Ee. destruct Ee as [_ Hint].
    specialize (Hleft Hent). subst r1. geometry.
  - inversion H; subst. auto.
Qed.

(** Committing a rectangle that intersects no exclusion rectangle. *)
Lemma commit_consistent (lay : SpanLayout.t) (rects : list Region.t)
    (k : SpanPtr) (r : Region.t) :
  consistent lay rects -> 0 <= Region.x r -> 0 <= Region.w r ->
  (forall e, In e rects -> Region.IntersectsRegion r e = false) ->
  consistent (SpanLayout.set k r lay) (add_rect r rects).
Proof.
  intros [Hl Hc Ha] Hx Hw Hmiss.
  assert (Hfar : forall k' r', SpanLayout.find lay k' = Some r' ->
                   Region.IntersectsRegion r r' = false).
  { intros k' r' Hk'. destruct (Hc _ _ Hk') as [->|Hcov].
    - now apply IntersectsRegion_zero.
    - now apply misses_covered with rects. }
  constructor.
  - intros k' r' Hf. rewrite find_set in Hf.
    destruct (Nat.eqb k k'); [inversion Hf; subst; auto|eauto].
  - intros k' r' Hf. rewrite find_set in Hf.
    destruct (Nat.eqb k k').
    + inversion Hf; subst. right. apply add_rect_covers_new.
    + destruct (Hc _ _ Hf) as [->|Hcov]; [now left|right].
      now apply add_rect_covers_old.
  - intros k1 k2 r1 r2 Hne H1 H2. rewrite find_set in H1, H2.
    destruct (Nat.eqb_spec k k1) as [E1|E1]; destruct (Nat.eqb_spec k k2) as [E2|E2].
    + congruence.
    + inversion H1; subst. eauto.
    + inversion H2; subst. rewrite IntersectsRegion_sym. eauto.
    + eauto.
Qed.

(** Entering the default region for a span that the cache does not hold. *)
Lemma default_entry_consistent (lay : SpanLayout.t) (rects : list Region.t) (k : SpanPtr) :
  consistent lay rects -> consistent (SpanLayout.set k Region.zero lay) rects.
Proof.
  intros [Hl Hc Ha]. constructor.
  - intros k' r' Hf. rewrite find_set in Hf.
    destruct (Nat.eqb k k'); [inversion Hf; subst; simpl; lia|eauto].
  - intros k' r' Hf. rewrite find_set in Hf.
    destruct (Nat.eqb k k'); [inversion Hf; now left|eauto].
  - intros k1 k2 r1 r2 Hne H1 H2. rewrite find_set in H1, H2.
    destruct (Nat.eqb_spec k k1) as [E1|E1]; destruct (Nat.eqb_spec k k2) as [E2|E2].
    + congruence.
    + inversion H1; subst. rewrite IntersectsRegion_sym.
      apply IntersectsRegion_zero. now apply (Hl k2).
    + inversion H2; subst. apply IntersectsRegion_zero. now apply (Hl k1).
    + eauto.
Qed.

Lemma layout_spans_consistent (fuel : nat) :
  forall (rest : list SpanPtr) (drawPoint : Point.t) (hp hp' : Heap)
         (c c' : TextContainer.t),
    layout_spans fuel rest drawPoint hp c = Ok (hp', c') ->
    0 <= Point.x drawPoint ->
    consistent (layout c) (ExclusionRects c) ->
    consistent (layout c') (ExclusionRects c') /\ laid_out_since c c'.
Proof.
  induction rest as [|span rest IH]; intros drawPoint hp hp' c c' H Hx Hc; simpl in H.
  - inversion H; subst. split; [exact Hc|apply laid_out_since_refl].
  - destruct (TextSpan.SpanFrame (hp span)) as [s' spanFrame].
    destruct (avoid_excluded fuel c spanFrame drawPoint Region.zero None)
      as [[p r]| |] eqn:Ea; simpl in H; try discriminate.
    unfold AddExclusionRect in H.
    destruct (Size.IsEmpty (Region.Dimensions r)) eqn:Eempty; simpl in H; try discriminate.
    apply avoid_excluded_Ok in Ea. destruct Ea as [Er [Hnone Hp]].
    assert (Hpx : 0 <= Point.x p) by (apply Hp; simpl; auto).
    pose proof (ExcludedRegionForRect_None _ _ Hnone) as Hmiss.
    assert (Hrx : 0 <= Region.x r) by (subst r; exact Hpx).
    assert (Hrw : 0 <= Region.w r) by geometry.
    apply IH in H; simpl; auto.
    + destruct H as [Hc' Hsince]. split; [exact Hc'|].
      eapply laid_out_since_trans; [|exact Hsince].
      split; simpl.
      * intros q Hq. now apply add_rect_covers_old.
      * intros k q Hf. rewrite find_set in Hf.
        destruct (Nat.eqb k span) eqn:Ek; destruct (Nat.eqb span k) eqn:Ek';
          try (apply Nat.eqb_eq in Ek; apply Nat.eqb_neq in Ek'; congruence);
          try (apply Nat.eqb_neq in Ek; apply Nat.eqb_eq in Ek'; congruence).
        -- inversion Hf; subst q. right; right.
           intros e He. now apply misses_covered with (ExclusionRects c).
        -- now left.
    + now apply commit_consistent.
Qed.

Lemma LayoutSpansStartingAt_consistent (fuel it : nat) (hp hp' : Heap)
    (c c' : TextContainer.t) :
  LayoutSpansStartingAt fuel it hp c = Ok (hp', c') ->
  consistent (layout c) (ExclusionRects c) ->
  consistent (layout c') (ExclusionRects c') /\ laid_out_since c c'.
Proof.
  unfold LayoutSpansStartingAt. intros H Hc.
  destruct (nth_error (spans c) it) as [span|]; [|discriminate].
  destruct it as [|before].
  - destruct (TextSpan.SpanFrame (hp span)) as [s' f].
    apply layout_spans_consistent in H; simpl; auto; lia.
  - destruct (nth_error (spans c) before) as [prev|]; [|discriminate].
    destruct (SpanLayout.index (layout c) prev) as [rgn lay] eqn:Ei.
    apply index_cases in Ei.
    apply layout_spans_consistent in H; simpl.
    + destruct H as [Hc' Hsince]. split; [exact Hc'|].
      eapply laid_out_since_trans; [|exact Hsince].
      split; simpl; [auto|].
      intros k q Hf. destruct Ei as [[_ ->]|[_ [_ ->]]]; [now left|].
      rewrite find_set in Hf. destruct (Nat.eqb prev k); [inversion Hf|]; auto.
    + destruct Ei as [[Hf _]|[_ [-> _]]]; [|simpl; lia].
      destruct (cached_left _ _ Hc _ _ Hf). lia.
    + destruct Ei as [[_ ->]|[_ [_ ->]]]; [exact Hc|].
      now apply default_entry_consistent.
Qed.

Lemma step_consistent (fuel : nat) (o : op) (st st' : Heap * TextContainer.t) :
  step fuel o st = Ok st' ->
  consistent (layout (snd st)) (ExclusionRects (snd st)) ->
  consistent (layout (snd st')) (ExclusionRects (snd st')) /\
  laid_out_since (snd st) (snd st').
Proof.
  destruct st as [hp c], st' as [hp' c']. simpl. intros H Hc.
  destruct o as [span|newSpan existing|span|rect]; simpl in H.
  - unfold AppendSpan in H.
    apply LayoutSpansStartingAt_consistent in H; [exact H|exact Hc].
  - unfold InsertSpanAfter in H.
    destruct (Nat.eqb existing NULL).
    + inversion H; subst. split; [exact Hc|]. split; simpl; auto.
    + destruct (index_of existing (spans c)) as [i|]; [|discriminate].
      apply LayoutSpansStartingAt_consistent in H; [exact H|exact Hc].
  - unfold RemoveSpan in H.
    destruct (index_of span (spans c)) as [[|before]|]; simpl in H; try discriminate.
    + destruct (LayoutSpansStartingAt fuel before hp
                  (with_spans c (erase_at (S before) (spans c))))
        as [[hp1 c1]| |] eqn:El; simpl in H; try discriminate.
      inversion H; subst.
      apply LayoutSpansStartingAt_consistent in El; [exact El|exact Hc].
    + inversion H; subst. split; [exact Hc|apply laid_out_since_refl].
  - unfold AddExclusionRect in H.
    destruct (Size.IsEmpty (Region.Dimensions rect)); simpl in H; [discriminate|].
    inversion H; subst. simpl. destruct Hc as [Hl Hcov Ha].
    split; [constructor; auto|].
    + intros k r Hf. destruct (Hcov _ _ Hf); [now left|right].
      now apply add_rect_covers_old.
    + split; simpl; auto. intros r Hr. now apply add_rect_covers_old.
Qed.

Lemma run_consistent (fuel : nat) (ops : list op) :
  forall st st' : Heap * TextContainer.t,
    run fuel ops st = Ok st' ->
    consistent (layout (snd st)) (ExclusionRects (snd st)) ->
    consistent (layout (snd st')) (ExclusionRects (snd st')) /\
    laid_out_since (snd st) (snd st').
Proof.
  induction ops as [|o ops IH]; intros st st' H Hc; simpl in H.
  - inversion H; subst. split; [exact Hc|apply laid_out_since_refl].
  - destruct (step fuel o st) as [st1| |] eqn:Es; simpl in H; try discriminate.
    destruct (step_consistent _ _ _ _ Es Hc) as [Hc1 Hs1].
    destruct (IH _ _ H Hc1) as [Hc' Hs']. split; [exact Hc'|].
    now apply laid_out_since_trans with (snd st1).
Qed.

Lemma create_consistent (frame_ : Size.t) :
  consistent (layout (create frame_)) (ExclusionRects (create frame_)).
Proof. constructor; simpl; intros; discriminate. Qed.

(** C1. Start from a new container and run any operations
    ([AppendSpan], [InsertSpanAfter], [RemoveSpan], [AddExclusionRect]),
    observing the container on the way ([c1]) and at the end ([c2]).  At
    the end the rectangles that the layout cache holds for two different
    spans do not intersect.  And a rectangle that the cache holds at the
    end and that was committed after the observation (the cache did not
    hold it for that span then, and it is not the default region of an
    entry that was only read) intersects none of the exclusion rectangles
    of the observed container. *)
Theorem layout_rectangles_do_not_overlap
    (fuel1 fuel2 : nat) (frame_ : Size.t) (ops1 ops2 : list op)
    (hp hp1 hp2 : Heap) (c1 c2 : TextContainer.t) :
  run fuel1 ops1 (hp, create frame_) = Ok (hp1, c1) ->
  run fuel2 ops2 (hp1, c1) = Ok (hp2, c2) ->
  (forall k1 k2 r1 r2, k1 <> k2 ->
     SpanLayout.find (layout c2) k1 = Some r1 ->
     SpanLayout.find (layout c2) k2 = Some r2 ->
     Region.IntersectsRegion r1 r2 = false) /\
  (forall e k r, In e (ExclusionRects c1) ->
     SpanLayout.find (layout c2) k = Some r ->
     SpanLayout.find (layout c1) k <> Some r ->
     r <> Region.zero ->
     Region.IntersectsRegion r e = false).
Proof.
  intros H1 H2.
  destruct (run_consistent _ _ _ _ H1 (create_consistent frame_)) as [Hc1 _].
  destruct (run_consistent _ _ _ _ H2 Hc1) as [Hc2 [_ Hsince]]. simpl in *.
  split.
  - exact (cached_apart _ _ Hc2).
  - intros e k r He Hf Hnew Hnz.
    destruct (Hsince k r Hf) as [H|[H|H]]; try contradiction.
    apply H. now apply covered_in.
Qed.
End LayoutInvariant.

(* ================================================================== *)
(** * Layout returns *)

Section LayoutReturns.
Import TextContainer Layout.

(** A frame that [SpanFrame] found not empty is returned unchanged by the
    next call, which does not render. *)
Lemma SpanFrame_stable (s : TextSpan.t) :
  Size.IsEmpty (snd (TextSpan.SpanFrame s)) = false ->
  TextSpan.SpanFrame (fst (TextSpan.SpanFrame s))
  = (fst (TextSpan.SpanFrame s), snd (TextSpan.SpanFrame s)).
Proof.
  unfold TextSpan.SpanFrame.
  destruct (Size.IsEmpty (TextSpan.frame s)) eqn:E; simpl; intro H.
  - now rewrite H.
  - now rewrite E.
Qed.

Lemma measurable_heap_set (hp : Heap) (p q : SpanPtr) :
  measurable hp q -> measurable hp p ->
  measurable (heap_set hp q (fst (TextSpan.SpanFrame (hp q)))) p.
Proof.
  unfold measurable, heap_set. intros Hq Hp.
  destruct (Nat.eqb p q); [|exact Hp].
  now rewrite SpanFrame_stable.
Qed.

Lemma layout_spans_fuel_mono (f f' : nat) :
  (f <= f')%nat ->
  forall (rest : list SpanPtr) (drawPoint : Point.t) (hp : Heap) (c : TextContainer.t)
         (st : Heap * TextContainer.t),
    layout_spans f rest drawPoint hp c = Ok st ->
    layout_spans f' rest drawPoint hp c = Ok st.
Proof.
  intro Hle. induction rest as [|span rest IH]; intros drawPoint hp c st H; simpl in *.
  - exact H.
  - destruct (TextSpan.SpanFrame (hp span)) as [s' spanFrame].
    destruct (avoid_excluded f c spanFrame drawPoint Region.zero None)
      as [placed| |] eqn:Ea; simpl in H; try discriminate.
    rewrite (avoid_excluded_fuel_mono _ _ _ _ _ _ _ _ Ea Hle). simpl.
    destruct (AddExclusionRect (snd placed) _) as [c2| |]; simpl in *;
      try discriminate.
    now apply IH.
Qed.

(** When the spans to lay out have frames that are not empty, the loop
    over them returns from some amount of fuel on. *)
Lemma layout_spans_returns :
  forall (rest : list SpanPtr) (drawPoint : Point.t) (hp : Heap) (c : TextContainer.t),
    (forall p, In p rest -> measurable hp p) ->
    exists (fuel : nat) (st : Heap * TextContainer.t),
      forall fuel', (fuel <= fuel')%nat ->
        layout_spans fuel' rest drawPoint hp c = Ok st.
Proof.
  induction rest as [|span rest IH]; intros drawPoint hp c Hm.
  - exists O, (hp, c). reflexivity.
  - pose proof (Hm span (or_introl eq_refl)) as Hspan.
    assert (Hrest : forall p, In p rest ->
              measurable (heap_set hp span (fst (TextSpan.SpanFrame (hp span)))) p).
    { intros p Hp. apply measurable_heap_set; auto. apply Hm. now right. }
    unfold measurable in Hspan.
    destruct (TextSpan.SpanFrame (hp span)) as [s' spanFrame] eqn:Es. simpl in Hspan, Hrest.
    assert (Hh : 0 < Size.h spanFrame) by (unfold Size.IsEmpty in Hspan; bool_to_Z; lia).
    set (n := S (loop_measure c
                   (fst (next_candidate c spanFrame drawPoint Region.zero None)))).
    destruct (avoid_excluded_enough_fuel c spanFrame Hh n drawPoint Region.zero None)
      as [p1 [E1 _]]; [subst n; lia|].
    destruct (IH p1 (heap_set hp span s')
                (with_rects
                   (with_layout c
                      (SpanLayout.set span (Region.make p1 spanFrame) (layout c)))
                   (add_rect (Region.make p1 spanFrame) (ExclusionRects c))) Hrest)
      as [f2 [st Hst]].
    exists (Nat.max n f2), st. intros fuel' Hf. simpl. rewrite Es.
    rewrite (avoid_excluded_fuel_mono _ _ _ _ _ _ _ _ E1) by lia. simpl.
    unfold AddExclusionRect.
    change (Size.IsEmpty (Region.Dimensions (Region.make p1 spanFrame)))
      with (Size.IsEmpty spanFrame).
    rewrite Hspan. simpl. apply Hst. lia.
Qed.

(** [LayoutSpansStartingAt] returns from some amount of fuel on when it
    starts inside the sequence and the spans from there on have frames
    that are not empty. *)
Lemma LayoutSpansStartingAt_returns (it : nat) (hp : Heap) (c : TextContainer.t) :
  (it < List.length (spans c))%nat ->
  (forall p, In p (skipn it (spans c)) -> measurable hp p) ->
  exists (fuel : nat) (st : Heap * TextContainer.t),
    forall fuel', (fuel <= fuel')%nat ->
      LayoutSpansStartingAt fuel' it hp c = Ok st.
Proof.
  intros Hit Hm. unfold LayoutSpansStartingAt.
  destruct (nth_error (spans c) it) as [span|] eqn:En;
    [|apply nth_error_None in En; lia].
  destruct it as [|before].
  - assert (Hs : measurable hp span).
    { apply Hm. simpl. eapply nth_error_In; eauto. }
    assert (Hrest : forall p, In p (skipn 0 (spans c)) ->
              measurable (heap_set hp span (fst (TextSpan.SpanFrame (hp span)))) p).
    { intros p Hp. apply measurable_heap_set; auto. }
    destruct (TextSpan.SpanFrame (hp span)) as [s' f]. simpl in Hrest.
    exact (layout_spans_returns _ _ _ _ Hrest).
  - destruct (nth_error (spans c) before) as [prev|] eqn:Ep;
      [|apply nth_error_None in Ep; lia].
    destruct (SpanLayout.index (layout c) prev) as [rgn lay].
    exact (layout_spans_returns _ _ _ _ Hm).
Qed.

(** X5. [AppendSpan] of a span that is not [NULL] and whose frame, as
    [SpanFrame] gives it, is not empty returns from some amount of fuel
    on, whatever the container holds: the appended span is the only one
    the layout asks for its frame, no assertion fails and the exclusion
    loop ends.  The heap holds an object at every pointer; the call with
    [NULL], which [SpanFrame] would dereference, is left out. *)
Lemma AppendSpan_returns (span : SpanPtr) (hp : Heap) (c : TextContainer.t) :
  span <> NULL -> measurable hp span ->
  exists (fuel : nat) (st : Heap * TextContainer.t),
    forall fuel', (fuel <= fuel')%nat -> AppendSpan fuel' span hp c = Ok st.
Proof.
  intros _ Hs. unfold AppendSpan. apply LayoutSpansStartingAt_returns; simpl.
  - rewrite length_app. simpl. lia.
  - intros p Hp. rewrite skipn_app, skipn_all, Nat.sub_diag in Hp. simpl in Hp.
    destruct Hp as [<-|[]]. exact Hs.
Qed.
End LayoutReturns.

(* ================================================================== *)
(** * Instances *)

Section Instances.
Import TextContainer Layout Scenario.

(** The loop at the draw point [(0,20)] for a span of 100x20 with the
    exclusion rectangle [(0,20)] 50x20 in the way. *)
Lemma exclusion_loop_terminates_witness :
  exists (fuel : nat) (drawPoint1 : Point.t),
    (forall fuel', (fuel <= fuel')%nat ->
       avoid_excluded fuel' (with_rects container0 [Region.mk 0 20 50 20])
         (Size.mk 100 20) (Point.mk 0 20) Region.zero None
       = Ok (drawPoint1, Region.make drawPoint1 (Size.mk 100 20))) /\
    ExcludedRegionForRect (with_rects container0 [Region.mk 0 20 50 20])
      (Region.make drawPoint1 (Size.mk 100 20)) = None /\
    (forall e, In e (ExclusionRects (with_rects container0 [Region.mk 0 20 50 20])) ->
       Region.IntersectsRegion (Region.make drawPoint1 (Size.mk 100 20)) e = false).
Proof.
  apply exclusion_loop_terminates; simpl; lia.
Defined.

(** An exclusion rectangle, then spans 1 and 2: span 1 is committed at
    [(51,20)] and span 2 at [(0,40)]; they miss each other and span 1
    misses the exclusion rectangle. *)
Lemma layout_rectangles_do_not_overlap_witness :
  Region.IntersectsRegion (Region.mk 51 20 100 20) (Region.mk 0 40 250 20) = false /\
  Region.IntersectsRegion (Region.mk 51 20 100 20) (Region.mk 0 20 50 20) = false.
Proof.
  edestruct (fun hp2 =>
    layout_rectangles_do_not_overlap fuel0 fuel0 (Size.mk 300 100)
      [OpAddExclusionRect (Region.mk 0 20 50 20)]
      [OpAppendSpan 1%nat; OpAppendSpan 2%nat]
      heap0 heap0 hp2
      (mk (Size.mk 300 100) [] [] [Region.mk 0 20 50 20])
      (mk (Size.mk 300 100) [1%nat; 2%nat]
         [(1%nat, Region.mk 51 20 100 20); (2%nat, Region.mk 0 40 250 20)]
         [Region.mk 0 20 50 20; Region.mk 51 20 100 20; Region.mk 0 40 250 20])
      eq_refl) as [Wa Wb].
  - vm_compute. reflexivity.
  - split.
    + apply (Wa 1%nat 2%nat); [discriminate|reflexivity|reflexivity].
    + apply (Wb (Region.mk 0 20 50 20) 1%nat);
        [simpl; auto|reflexivity|discriminate|discriminate].
Defined.
End Instances.

(* ================================================================== *)
(** * Locality of re-layout *)

Section Locality.
Import TextContainer Layout.

Lemma index_of_nth_error (p : SpanPtr) (l : list SpanPtr) :
  forall i, index_of p l = Some i -> nth_error l i = Some p.
Proof.
  induction l as [|q l IH]; simpl; intros i H; [discriminate|].
  destruct (Nat.eqb_spec q p) as [->|Hq].
  - now inversion H.
  - destruct (index_of p l) as [i'|]; simpl in H; [|discriminate].
    inversion H; subst. simpl. now apply IH.
Qed.

(** In a list without repetition [std::find] finds a span where it is. *)
Lemma index_of_NoDup (p : SpanPtr) (l : list SpanPtr) :
  NoDup l -> forall k, nth_error l k = Some p -> index_of p l = Some k.
Proof.
  induction 1 as [|q l Hnot Hnd IH]; intros k Hk.
  - destruct k; discriminate.
  - simpl. destruct k as [|k]; simpl in Hk.
    + inversion Hk; subst. now rewrite Nat.eqb_refl.
    + destruct (Nat.eqb_spec q p) as [->|Hq].
      * exfalso. apply Hnot. eapply nth_error_In; eauto.
      * now rewrite (IH _ Hk).
Qed.

Lemma NoDup_position (l : list SpanPtr) :
  NoDup l -> forall i j p,
    nth_error l i = Some p -> nth_error l j = Some p -> i = j.
Proof.
  intros Hnd i j p Hi Hj. apply (proj1 (NoDup_nth_error l) Hnd).
  - apply nth_error_Some. congruence.
  - congruence.
Qed.

Lemma In_skipn_nth_error (n : nat) (l : list SpanPtr) (p : SpanPtr) :
  In p (skipn n l) -> exists m, (n <= m)%nat /\ nth_error l m = Some p.
Proof.
  intro H. apply In_nth_error in H. destruct H as [m Hm].
  rewrite nth_error_skipn in Hm. exists (n + m)%nat. split; [lia|exact Hm].
Qed.

(** Where the elements of a list are after [erase] and [insert]. *)
Lemma nth_error_erase_at :
  forall (i : nat) (l : list SpanPtr) (m : nat) (p : SpanPtr),
    nth_error (erase_at i l) m = Some p ->
    ((m < i)%nat /\ nth_error l m = Some p) \/
    ((i <= m)%nat /\ nth_error l (S m) = Some p).
Proof.
  unfold erase_at. induction i as [|i IH]; intros l m p H.
  - destruct l as [|a l]; simpl in H; [destruct m; discriminate|].
    right. split; [lia|exact H].
  - destruct l as [|a l]; simpl in H; [destruct m; discriminate|].
    destruct m as [|m]; simpl in *.
    + left. split; [lia|exact H].
    + destruct (IH _ _ _ H) as [[? ?]|[? ?]]; [left|right]; split; auto; lia.
Qed.

Lemma nth_error_insert_at :
  forall (i : nat) (x : SpanPtr) (l : list SpanPtr) (m : nat) (p : SpanPtr),
    nth_error (insert_at i x l) m = Some p ->
    p = x \/ exists m', (m <= S m')%nat /\ nth_error l m' = Some p.
Proof.
  unfold insert_at. induction i as [|i IH]; intros x l m p H.
  - simpl in H. destruct m as [|m]; simpl in H.
    + left. now inversion H.
    + right. exists m. split; [lia|exact H].
  - destruct l as [|a l]; simpl in H.
    + destruct m as [|m]; simpl in H; [left; now inversion H|destruct m; discriminate].
    + destruct m as [|m]; simpl in H.
      * right. exists O. split; [lia|exact H].
      * destruct (IH _ _ _ _ H) as [->|[m' [Hm Hp]]]; [now left|].
        right. exists (S m'). split; [lia|exact Hp].
Qed.

Lemma insert_at_position :
  forall (i : nat) (x : SpanPtr) (l : list SpanPtr) (k : nat),
    ~ In x l -> nth_error (insert_at i x l) k = Some x -> (k <= i)%nat.
Proof.
  unfold insert_at. induction i as [|i IH]; intros x l k Hx H.
  - simpl in H. destruct k as [|k]; [lia|]. simpl in H.
    exfalso. apply Hx. eapply nth_error_In; eauto.
  - destruct l as [|a l]; simpl in H.
    + destruct k as [|k]; [lia|]. destruct k; discriminate.
    + destruct k as [|k]; [lia|]. simpl in H.
      assert (k <= i)%nat; [|lia].
      apply (IH x l k); [|exact H]. intro Hin. apply Hx. now right.
Qed.

(** The loop over the spans writes the cache only at the spans it visits. *)
Lemma layout_spans_frame (fuel : nat) :
  forall (rest : list SpanPtr) (drawPoint : Point.t) (hp hp' : Heap)
         (c c' : TextContainer.t),
    layout_spans fuel rest drawPoint hp c = Ok (hp', c') ->
    spans c' = spans c /\
    forall p, ~ In p rest ->
      SpanLayout.find (layout c') p = SpanLayout.find (layout c) p.
Proof.
  induction rest as [|span rest IH]; intros drawPoint hp hp' c c' H; simpl in H.
  - inversion H; subst. auto.
  - destruct (TextSpan.SpanFrame (hp span)) as [s' spanFrame].
    destruct (avoid_excluded fuel c spanFrame drawPoint Region.zero None)
      as [[q r]| |]; simpl in H; try discriminate.
    unfold AddExclusionRect in H.
    destruct (Size.IsEmpty (Region.Dimensions r)); simpl in H; try discriminate.
    apply IH in H. destruct H as [Hs Hf]. simpl in *.
    split; [exact Hs|]. intros p Hp. rewrite Hf by tauto. simpl.
    apply find_set_other. intro E. apply Hp. now left.
Qed.

(** [LayoutSpansStartingAt] keeps the sequence, and keeps the rectangle of
    a span that has one and stands before the starting position only. *)
Lemma LayoutSpansStartingAt_frame (fuel it : nat) (hp hp' : Heap)
    (c c' : TextContainer.t) :
  LayoutSpansStartingAt fuel it hp c = Ok (hp', c') ->
  spans c' = spans c /\
  forall p, ~ In p (skipn it (spans c)) -> SpanLayout.find (layout c) p <> None ->
    SpanLayout.find (layout c') p = SpanLayout.find (layout c) p.
Proof.
  unfold LayoutSpansStartingAt. intro H.
  destruct (nth_error (spans c) it) as [span|]; [|discriminate].
  destruct it as [|before].
  - destruct (TextSpan.SpanFrame (hp span)) as [s' f].
    apply layout_spans_frame in H. destruct H as [Hs Hf]. split; [exact Hs|].
    intros p Hp _. now apply Hf.
  - destruct (nth_error (spans c) before) as [prev|]; [|discriminate].
    destruct (SpanLayout.index (layout c) prev) as [rgn lay] eqn:Ei.
    apply index_cases in Ei.
    apply layout_spans_frame in H. destruct H as [Hs Hf]. simpl in *.
    split; [exact Hs|]. intros p Hp Hlaid. rewrite (Hf p Hp).
    destruct Ei as [[_ ->]|[Hnone [_ ->]]]; [reflexivity|].
    apply find_set_other. intro E. subst p. contradiction.
Qed.

(** Layout never takes a span out of the cache, and so neither does
    [RemoveSpan]: the cache has no operation that erases. *)
Lemma layout_spans_keeps_keys (fuel : nat) :
  forall (rest : list SpanPtr) (drawPoint : Point.t) (hp hp' : Heap)
         (c c' : TextContainer.t),
    layout_spans fuel rest drawPoint hp c = Ok (hp', c') ->
    forall k, SpanLayout.find (layout c) k <> None ->
              SpanLayout.find (layout c') k <> None.
Proof.
  induction rest as [|span rest IH]; intros drawPoint hp hp' c c' H k Hk; simpl in H.
  - inversion H; subst. exact Hk.
  - destruct (TextSpan.SpanFrame (hp span)) as [s' spanFrame].
    destruct (avoid_excluded fuel c spanFrame drawPoint Region.zero None)
      as [[q r]| |]; simpl in H; try discriminate.
    unfold AddExclusionRect in H.
    destruct (Size.IsEmpty (Region.Dimensions r)); simpl in H; try discriminate.
    apply (IH _ _ _ _ _ H). simpl. rewrite find_set.
    destruct (Nat.eqb span k); [discriminate|exact Hk].
Qed.

Lemma RemoveSpan_never_erases (fuel : nat) (span ret : SpanPtr) (hp hp' : Heap)
    (c c' : TextContainer.t) :
  RemoveSpan fuel span hp c = Ok (hp', c', ret) ->
  forall k, SpanLayout.find (layout c) k <> None ->
            SpanLayout.find (layout c') k <> None.
Proof.
  unfold RemoveSpan. intros H k Hk.
  destruct (index_of span (spans c)) as [[|before]|]; try discriminate.
  - destruct (LayoutSpansStartingAt fuel before hp
                (with_spans c (erase_at (S before) (spans c))))
      as [[hp1 c1]| |] eqn:El; simpl in H; try discriminate.
    inversion H; subst. clear H. unfold LayoutSpansStartingAt in El.
    destruct (nth_error _ before) as [first|]; [|discriminate].
    destruct before as [|before].
    + destruct (TextSpan.SpanFrame (hp first)) as [s' f].
      exact (layout_spans_keeps_keys _ _ _ _ _ _ _ El k Hk).
    + destruct (nth_error _ before) as [prev|]; [|discriminate].
      destruct (SpanLayout.index (layout _) prev) as [rgn lay] eqn:Ei.
      apply index_cases in Ei.
      apply (layout_spans_keeps_keys _ _ _ _ _ _ _ El k). simpl in *.
      destruct Ei as [[_ ->]|[_ [_ ->]]]; [exact Hk|].
      rewrite find_set. destruct (Nat.eqb prev k); [discriminate|exact Hk].
  - inversion H; subst. exact Hk.
Qed.

(** What a restart of the layout leaves alone.  In a container of
    distinct spans that are all laid out, an insertion at position [k] (at the end by
    [AppendSpan], elsewhere by [InsertSpanAfter] of a span not yet in the
    sequence) that returns keeps the rectangles of the spans below [k];
    a removal at position [k] that returns starts layout at the span
    before the removed one and keeps the rectangles of the spans below
    [k - 1]. *)
Theorem edits_keep_earlier_rectangles
    (fuel : nat) (hp : Heap) (c : TextContainer.t) :
  NoDup (spans c) -> all_laid_out c ->
  (forall span hp' c', ~ In span (spans c) ->
     AppendSpan fuel span hp c = Ok (hp', c') ->
     keeps_before (List.length (spans c)) c c') /\
  (forall newSpan existing k hp' c', ~ In newSpan (spans c) ->
     InsertSpanAfter fuel newSpan existing hp c = Ok (hp', c') ->
     nth_error (spans c') k = Some newSpan ->
     keeps_before k c c') /\
  (forall span k ret hp' c', nth_error (spans c) k = Some span ->
     RemoveSpan fuel span hp c = Ok (hp', c', ret) ->
     keeps_before (k - 1) c c').
Proof.
  intros Hnd Hall. split; [|split].
  - intros span hp' c' Hfresh H j p Hj Hp.
    unfold AppendSpan in H. apply LayoutSpansStartingAt_frame in H.
    destruct H as [_ Hf]. cbn [spans with_spans layout] in Hf. apply Hf.
    + intro Hin. apply In_skipn_nth_error in Hin. destruct Hin as [m [Hm Hpm]].
      rewrite nth_error_app2 in Hpm by exact Hm.
      destruct (m - List.length (spans c))%nat as [|d]; simpl in Hpm.
      * inversion Hpm; subst. apply Hfresh. eapply nth_error_In; eauto.
      * destruct d; discriminate.
    + apply Hall. eapply nth_error_In; eauto.
  - intros newSpan existing k hp' c' Hfresh H Hk j p Hj Hp.
    unfold InsertSpanAfter in H. destruct (Nat.eqb existing NULL).
    + inversion H; subst. reflexivity.
    + destruct (index_of existing (spans c)) as [i|]; [|discriminate].
      apply LayoutSpansStartingAt_frame in H. destruct H as [Hs Hf].
      cbn [spans with_spans layout] in Hs, Hf.
      rewrite Hs in Hk. apply insert_at_position in Hk; [|exact Hfresh].
      apply Hf.
      * intro Hin. apply In_skipn_nth_error in Hin. destruct Hin as [m [Hm Hpm]].
        apply nth_error_insert_at in Hpm. destruct Hpm as [->|[m' [Hm' Hpm']]].
        -- apply Hfresh. eapply nth_error_In; eauto.
        -- pose proof (NoDup_position _ Hnd _ _ _ Hp Hpm'). lia.
      * apply Hall. eapply nth_error_In; eauto.
  - intros span k ret hp' c' Hk H j p Hj Hp.
    unfold RemoveSpan in H. rewrite (index_of_NoDup _ _ Hnd _ Hk) in H.
    destruct k as [|before]; [discriminate|].
    destruct (LayoutSpansStartingAt fuel before hp
                (with_spans c (erase_at (S before) (spans c))))
      as [[hp1 c1]| |] eqn:El; simpl in H; try discriminate.
    inversion H; subst. apply LayoutSpansStartingAt_frame in El.
    destruct El as [_ Hf]. cbn [spans with_spans layout] in Hf. apply Hf.
    + intro Hin. apply In_skipn_nth_error in Hin. destruct Hin as [m [Hm Hpm]].
      apply nth_error_erase_at in Hpm.
      destruct Hpm as [[_ Hpm]|[_ Hpm]];
        pose proof (NoDup_position _ Hnd _ _ _ Hp Hpm); lia.
    + apply Hall. eapply nth_error_In; eauto.
Qed.
End Locality.

(* ================================================================== *)
(** * Locality: instances *)

Section LocalityInstances.
Import TextContainer Layout Scenario.

Lemma scenario_containers_reached :
  final (run fuel0 [OpAppendSpan 1%nat; OpAppendSpan 3%nat] (heap0, container0))
    = Some two_spans /\
  final (run fuel0 [OpRemoveSpan 3%nat] (heap0, two_spans)) = Some two_spans_removed /\
  final (run fuel0 [OpAppendSpan 1%nat; OpAppendSpan 3%nat; OpAppendSpan 2%nat]
           (heap0, container0)) = Some three_spans /\
  final (run fuel0 [OpRemoveSpan 2%nat] (heap0, three_spans)) = Some three_spans_removed.
Proof. repeat split; vm_compute; reflexivity. Qed.

Ltac distinct_spans :=
  repeat (apply NoDup_cons; [simpl; intuition discriminate|]); apply NoDup_nil.

Ltac spans_laid_out :=
  let p := fresh "p" in let Hp := fresh "Hp" in
  intros p Hp; simpl in Hp;
  repeat (destruct Hp as [<-|Hp]; [discriminate|]); contradiction.

(** Spans 1 and 3 stand side by side in the first row.  Removing span 3,
    at position 1, lays span 1 out again, which now has to avoid the
    rectangles both spans occupied: the span at position 0 moves from
    [(0,20)] to [(0,40)]. *)
Lemma locality_as_stated_fails : ~ locality_as_stated.
Proof.
  intro H.
  destruct (H fuel0 heap0 two_spans) as [_ [_ Hrem]];
    [distinct_spans|spans_laid_out|].
  assert (K : keeps_before 1 two_spans two_spans_removed).
  { eapply (Hrem 3%nat 1%nat 3%nat _ two_spans_removed);
      [reflexivity|vm_compute; reflexivity]. }
  specialize (K 0%nat 1%nat ltac:(lia) eq_refl). discriminate K.
Qed.

(** C2 on the code.  Spans 1 and 3, both 100x20, appended to the 300x100
    container stand at [(0,20)] and [(101,20)], at positions 0 and 1.
    [RemoveSpan] of span 3, at position 1, returns with the rectangle of
    span 1, at position 0, moved to [(0,40)]: layout restarts at the span
    before the removed one, and the rectangles both spans occupied are
    still exclusion rectangles.  The same restart without those exclusion
    rectangles puts span 1 back at [(0,20)]. *)
Theorem RemoveSpan_moves_earlier_span :
  final (run fuel0 [OpAppendSpan 1%nat; OpAppendSpan 3%nat] (heap0, container0))
    = Some two_spans /\
  nth_error (spans two_spans) 0 = Some 1%nat /\
  nth_error (spans two_spans) 1 = Some 3%nat /\
  SpanLayout.find (layout two_spans) 1%nat = Some (Region.mk 0 20 100 20) /\
  final (run fuel0 [OpRemoveSpan 3%nat] (heap0, two_spans)) = Some two_spans_removed /\
  SpanLayout.find (layout two_spans_removed) 1%nat = Some (Region.mk 0 40 100 20) /\
  ~ keeps_before 1 two_spans two_spans_removed /\
  option_map (fun c => SpanLayout.find (layout c) 1%nat)
    (final (LayoutSpansStartingAt fuel0 0 heap0
              (with_rects (with_spans two_spans [1%nat]) [])))
    = Some (Some (Region.mk 0 20 100 20)).
Proof.
  repeat split; try (vm_compute; reflexivity).
  intro K. specialize (K 0%nat 1%nat ltac:(lia) eq_refl). discriminate K.
Qed.

(** Removing span 2, at position 2 of three spans, keeps span 1 at
    position 0 where it is. *)
Lemma edits_keep_earlier_rectangles_witness :
  SpanLayout.find (layout three_spans_removed) 1%nat
  = SpanLayout.find (layout three_spans) 1%nat.
Proof.
  destruct (edits_keep_earlier_rectangles fuel0 heap0 three_spans)
    as [_ [_ Hrem]]; [distinct_spans|spans_laid_out|].
  eapply (Hrem 2%nat 2%nat 2%nat _ three_spans_removed) with (j := 0%nat);
    [reflexivity|vm_compute; reflexivity|simpl; lia|reflexivity].
Defined.
End LocalityInstances.

(* ================================================================== *)
(** * More on the layout cache: order of keys, borders and sizes *)

Section CacheInvariant.
Import TextContainer Layout Cache.

Lemma SpanFrame_snd (s : TextSpan.t) :
  snd (TextSpan.SpanFrame s) = TextSpan.frame (fst (TextSpan.SpanFrame s)).
Proof. unfold TextSpan.SpanFrame. now destruct (Size.IsEmpty (TextSpan.frame s)). Qed.

Lemma SpanFrame_fixed (s : TextSpan.t) :
  Size.IsEmpty (TextSpan.frame s) = false -> TextSpan.SpanFrame s = (s, TextSpan.frame s).
Proof. unfold TextSpan.SpanFrame. now intros ->. Qed.

Lemma set_keys (k k' : SpanPtr) (r : Region.t) (l : SpanLayout.t) :
  In k' (map fst (SpanLayout.set k r l)) -> k' = k \/ In k' (map fst l).
Proof.
  induction l as [|[q rq] l IH]; simpl.
  - intros [<-|[]]. now left.
  - destruct (Nat.ltb k q); [|destruct (Nat.eqb k q)]; simpl.
    + intros [<-|H]; auto.
    + intros [<-|H]; auto.
    + intros [<-|H]; auto. destruct (IH H); auto.
Qed.

Lemma set_ordered (k : SpanPtr) (r : Region.t) (l : SpanLayout.t) :
  keys_ordered l -> keys_ordered (SpanLayout.set k r l).
Proof.
  induction l as [|[q rq] l IH]; simpl.
  - intros _. split; [intros k' []|exact I].
  - intros [Hq Hl].
    destruct (Nat.ltb_spec k q) as [Hlt|Hge]; [|destruct (Nat.eqb_spec k q) as [->|Hne]];
      simpl.
    + split; [|split; assumption].
      intros k' [<-|Hk']; [exact Hlt|]. specialize (Hq _ Hk'). simpl in Hq. lia.
    + split; assumption.
    + split; [|now apply IH].
      intros k' Hk'. apply set_keys in Hk'. destruct Hk' as [->|Hk'].
      * simpl. lia.
      * now apply Hq.
Qed.

(** In an ordered cache an entry of the list is what [find] gives for its
    key. *)
Lemma find_In (l : SpanLayout.t) (k : SpanPtr) (r : Region.t) :
  SpanLayout.find l k = Some r -> In (k, r) l.
Proof.
  induction l as [|[q rq] l IH]; simpl; [discriminate|].
  destruct (Nat.eqb_spec q k) as [->|Hne].
  - intro H. inversion H. now left.
  - intro H. right. now apply IH.
Qed.

Lemma In_find (l : SpanLayout.t) (k : SpanPtr) (r : Region.t) :
  keys_ordered l -> In (k, r) l -> SpanLayout.find l k = Some r.
Proof.
  induction l as [|[q rq] l IH]; simpl; [tauto|].
  intros [Hq Hl] [H|H].
  - inversion H; subst. now rewrite Nat.eqb_refl.
  - assert (q < k)%nat by (apply (Hq k); apply (in_map fst _ _ H)).
    destruct (Nat.eqb_spec q k); [lia|]. now apply IH.
Qed.

Lemma next_candidate_fits (c : TextContainer.t) (spanFrame : Size.t)
    (drawPoint p : Point.t) (layoutRgn r : Region.t) (excluded : option Region.t) :
  next_candidate c spanFrame drawPoint layoutRgn excluded = (p, r) ->
  fits (Size.w (frame c)) r.
Proof.
  unfold next_candidate, fits. intro H. injection H as Hp Hr. subst p r.
  fold (entry_column spanFrame drawPoint layoutRgn excluded).
  set (x1 := entry_column spanFrame drawPoint layoutRgn excluded).
  destruct (Z.eqb_spec x1 0) as [E|E]; simpl.
  - left. exact E.
  - destruct (Z.ltb_spec (Size.w (frame c)) (x1 + Size.w spanFrame)); simpl; auto.
Qed.

Lemma avoid_excluded_fits (c : TextContainer.t) (spanFrame : Size.t) :
  forall (fuel : nat) (drawPoint : Point.t) (layoutRgn : Region.t)
         (excluded : option Region.t) (p : Point.t) (r : Region.t),
    avoid_excluded fuel c spanFrame drawPoint layoutRgn excluded = Ok (p, r) ->
    fits (Size.w (frame c)) r.
Proof.
  induction fuel as [|fuel IH]; intros drawPoint layoutRgn excluded p r H; [discriminate|].
  rewrite avoid_excluded_S in H.
  destruct (next_candidate c spanFrame drawPoint layoutRgn excluded) as [p1 r1] eqn:En.
  apply next_candidate_fits in En.
  destruct (ExcludedRegionForRect c r1) as [e|].
  - exact (IH _ _ _ _ _ H).
  - inversion H; subst. exact En.
Qed.

Lemma sized_heap_set (hp : Heap) (q k : SpanPtr) (r : Region.t) :
  sized hp k r -> sized (heap_set hp q (fst (TextSpan.SpanFrame (hp q)))) k r.
Proof.
  unfold sized, heap_set. intros [->|[He Hd]]; [now left|right].
  destruct (Nat.eqb_spec k q) as [->|Hne]; [|auto].
  rewrite (SpanFrame_fixed _ He). simpl. auto.
Qed.

Lemma layout_spans_cache_ok (fuel : nat) :
  forall (rest : list SpanPtr) (drawPoint : Point.t) (hp hp' : Heap)
         (c c' : TextContainer.t),
    layout_spans fuel rest drawPoint hp c = Ok (hp', c') ->
    cache_ok hp c -> cache_ok hp' c' /\ frame c' = frame c.
Proof.
  induction rest as [|span rest IH]; intros drawPoint hp hp' c c' H Hok; simpl in H.
  - inversion H; subst. auto.
  - pose proof (SpanFrame_snd (hp span)) as Hsnd.
    assert (Hset : forall k r, sized hp k r ->
              sized (heap_set hp span (fst (TextSpan.SpanFrame (hp span)))) k r)
      by (intros; now apply sized_heap_set).
    destruct (TextSpan.SpanFrame (hp span)) as [s' spanFrame]. simpl in Hsnd, Hset.
    destruct (avoid_excluded fuel c spanFrame drawPoint Region.zero None)
      as [[p r]| |] eqn:Ea; simpl in H; try discriminate.
    unfold AddExclusionRect in H.
    destruct (Size.IsEmpty (Region.Dimensions r)) eqn:Eempty; simpl in H; try discriminate.
    pose proof (avoid_excluded_fits _ _ _ _ _ _ _ _ Ea) as Hfit.
    apply avoid_excluded_Ok in Ea. destruct Ea as [Er _].
    apply IH in H.
    + destruct H as [Hok' Hf]. split; [exact Hok'|exact Hf].
    + destruct Hok as [Ho Hfits Hsized]. constructor; simpl.
      * now apply set_ordered.
      * intros k q Hk. rewrite find_set in Hk.
        destruct (Nat.eqb span k); [inversion Hk; subst q; exact Hfit|eauto].
      * intros k q Hk. rewrite find_set in Hk.
        destruct (Nat.eqb_spec span k) as [<-|Hne]; [|eauto].
        inversion Hk; subst q. right. unfold heap_set. rewrite Nat.eqb_refl.
        subst r. rewrite <- Hsnd.
        assert (Ed : Region.Dimensions (Region.make p spanFrame) = spanFrame)
          by now destruct spanFrame.
        rewrite Ed in *. auto.
Qed.

Lemma LayoutSpansStartingAt_cache_ok (fuel it : nat) (hp hp' : Heap)
    (c c' : TextContainer.t) :
  LayoutSpansStartingAt fuel it hp c = Ok (hp', c') ->
  cache_ok hp c -> cache_ok hp' c' /\ frame c' = frame c.
Proof.
  unfold LayoutSpansStartingAt. intros H Hok.
  destruct (nth_error (spans c) it) as [span|]; [|discriminate].
  destruct it as [|before].
  - assert (Hset : forall k r, sized hp k r ->
              sized (heap_set hp span (fst (TextSpan.SpanFrame (hp span)))) k r)
      by (intros; now apply sized_heap_set).
    destruct (TextSpan.SpanFrame (hp span)) as [s' f]. simpl in Hset.
    apply layout_spans_cache_ok in H; [exact H|].
    destruct Hok as [Ho Hfits Hsized]. constructor; eauto.
  - destruct (nth_error (spans c) before) as [prev|]; [|discriminate].
    destruct (SpanLayout.index (layout c) prev) as [rgn lay] eqn:Ei.
    apply index_cases in Ei.
    apply layout_spans_cache_ok in H; [exact H|].
    destruct Hok as [Ho Hfits Hsized].
    destruct Ei as [[_ ->]|[_ [_ ->]]]; constructor; simpl; auto.
    + now apply set_ordered.
    + intros k q Hk. rewrite find_set in Hk.
      destruct (Nat.eqb prev k); [inversion Hk; now left|eauto].
    + intros k q Hk. rewrite find_set in Hk.
      destruct (Nat.eqb prev k); [inversion Hk; now left|eauto].
Qed.

Lemma with_spans_cache_ok (hp : Heap) (c : TextContainer.t) (l : list SpanPtr) :
  cache_ok hp c -> cache_ok hp (with_spans c l).
Proof. intros [Ho Hfits Hsized]. constructor; simpl; auto. Qed.

Lemma step_cache_ok (fuel : nat) (o : op) (st st' : Heap * TextContainer.t) :
  step fuel o st = Ok st' ->
  cache_ok (fst st) (snd st) ->
  cache_ok (fst st') (snd st') /\ frame (snd st') = frame (snd st).
Proof.
  destruct st as [hp c], st' as [hp' c']. simpl. intros H Hok.
  destruct o as [span|newSpan existing|span|rect]; simpl in H.
  - unfold AppendSpan in H.
    apply LayoutSpansStartingAt_cache_ok in H; [exact H|now apply with_spans_cache_ok].
  - unfold InsertSpanAfter in H. destruct (Nat.eqb existing NULL).
    + inversion H; subst. split; [now apply with_spans_cache_ok|reflexivity].
    + destruct (index_of existing (spans c)) as [i|]; [|discriminate].
      apply LayoutSpansStartingAt_cache_ok in H;
        [exact H|now apply with_spans_cache_ok].
  - unfold RemoveSpan in H.
    destruct (index_of span (spans c)) as [[|before]|]; simpl in H; try discriminate.
    + destruct (LayoutSpansStartingAt fuel before hp
                  (with_spans c (erase_at (S before) (spans c))))
        as [[hp1 c1]| |] eqn:El; simpl in H; try discriminate.
      inversion H; subst.
      apply LayoutSpansStartingAt_cache_ok in El;
        [exact El|now apply with_spans_cache_ok].
    + inversion H; subst. auto.
  - unfold AddExclusionRect in H.
    destruct (Size.IsEmpty (Region.Dimensions rect)); simpl in H; [discriminate|].
    inversion H; subst. destruct Hok as [Ho Hfits Hsized].
    split; [constructor; simpl; auto|reflexivity].
Qed.

Lemma run_cache_ok (fuel : nat) (ops : list op) :
  forall st st' : Heap * TextContainer.t,
    run fuel ops st = Ok st' ->
    cache_ok (fst st) (snd st) ->
    cache_ok (fst st') (snd st') /\ frame (snd st') = frame (snd st).
Proof.
  induction ops as [|o ops IH]; intros st st' H Hok; simpl in H.
  - inversion H; subst. auto.
  - destruct (step fuel o st) as [st1| |] eqn:Es; simpl in H; try discriminate.
    destruct (step_cache_ok _ _ _ _ Es Hok) as [Hok1 Hf1].
    destruct (IH _ _ H Hok1) as [Hok' Hf']. split; [exact Hok'|congruence].
Qed.

Lemma create_cache_ok (hp : Heap) (frame_ : Size.t) : cache_ok hp (create frame_).
Proof. constructor; simpl; [exact I|intros; discriminate|intros; discriminate]. Qed.
End CacheInvariant.

(* ================================================================== *)
(** * Properties of the cache of a container that was built by its
      operations *)

Section CacheTheorems.
Import TextContainer Layout Cache Scenario.

(** X1. A committed rectangle never reaches over the right border of the
    container unless it starts at column zero (a span wider than the
    container), and no operation changes the container's frame. *)
Theorem cached_rectangles_fit (fuel : nat) (frame_ : Size.t) (ops : list op)
    (hp0 hp : Heap) (c : TextContainer.t) :
  run fuel ops (hp0, create frame_) = Ok (hp, c) ->
  frame c = frame_ /\
  forall k r, SpanLayout.find (layout c) k = Some r ->
    Region.x r = 0 \/ Region.x r + Region.w r <= Size.w frame_.
Proof.
  intro H.
  destruct (run_cache_ok _ _ _ _ H (create_cache_ok hp0 frame_)) as [Hok Hf].
  simpl in *. split; [exact Hf|].
  intros k r Hk. rewrite <- Hf. exact (cache_fits _ _ Hok k r Hk).
Qed.

(** Span 4 is wider than the container and stays at column zero; span 1
    after it ends left of the border. *)
Lemma cached_rectangles_fit_witness :
  (Region.x (Region.mk 0 20 400 20) = 0 \/
   Region.x (Region.mk 0 20 400 20) + Region.w (Region.mk 0 20 400 20) <= 300) /\
  (Region.x (Region.mk 0 40 100 20) = 0 \/
   Region.x (Region.mk 0 40 100 20) + Region.w (Region.mk 0 40 100 20) <= 300).
Proof.
  edestruct (fun hp =>
    cached_rectangles_fit fuel0 (Size.mk 300 100)
      [OpAppendSpan 4%nat; OpAppendSpan 1%nat] heap0 hp
      (mk (Size.mk 300 100) [4%nat; 1%nat]
         [(1%nat, Region.mk 0 40 100 20); (4%nat, Region.mk 0 20 400 20)]
         [Region.mk 0 20 400 20; Region.mk 0 40 100 20])) as [_ W].
  - vm_compute. reflexivity.
  - split; [apply (W 4%nat)|apply (W 1%nat)]; reflexivity.
Defined.

(** X2. A committed rectangle has the size of the frame of its span, as the
    span object holds it at that time, and that size is not empty. *)
Theorem cached_rectangles_sized (fuel : nat) (frame_ : Size.t) (ops : list op)
    (hp0 hp : Heap) (c : TextContainer.t) :
  run fuel ops (hp0, create frame_) = Ok (hp, c) ->
  forall k r, SpanLayout.find (layout c) k = Some r -> r <> Region.zero ->
    Region.Dimensions r = TextSpan.frame (hp k) /\
    Size.IsEmpty (Region.Dimensions r) = false.
Proof.
  intros H k r Hk Hnz.
  destruct (run_cache_ok _ _ _ _ H (create_cache_ok hp0 frame_)) as [Hok _].
  destruct (cache_sized _ _ Hok k r Hk) as [->|[He Hd]]; [contradiction|].
  split; [exact Hd|now rewrite Hd].
Qed.

(** Span 5 has an unset frame, is sized 100x20 by its first render and
    is cached with that size. *)
Lemma cached_rectangles_sized_witness :
  exists hp : Heap,
    Region.Dimensions (Region.mk 0 20 100 20) = TextSpan.frame (hp 5%nat) /\
    Size.IsEmpty (Region.Dimensions (Region.mk 0 20 100 20)) = false.
Proof.
  edestruct (fun hp H =>
    cached_rectangles_sized fuel0 (Size.mk 300 100) [OpAppendSpan 5%nat] heap0 hp
      (mk (Size.mk 300 100) [5%nat] [(5%nat, Region.mk 0 20 100 20)]
         [Region.mk 0 20 100 20]) H 5%nat (Region.mk 0 20 100 20)) as [W1 W2];
    [vm_compute; reflexivity|reflexivity|discriminate|].
  eexists. split; [exact W1|exact W2].
Defined.

Lemma PointInside_both (a b : Region.t) (p : Point.t) :
  Region.PointInside a p = true -> Region.PointInside b p = true ->
  Region.IntersectsRegion a b = true.
Proof. intros. geometry. Qed.

(** X3. The hit test is exact on a container built by its operations: for a
    span other than [NULL], [SpanAtPoint] answers with it exactly for the
    points inside the container that its cached rectangle contains. *)
Theorem SpanAtPoint_exact (fuel : nat) (frame_ : Size.t) (ops : list op)
    (hp0 hp : Heap) (c : TextContainer.t) :
  run fuel ops (hp0, create frame_) = Ok (hp, c) ->
  forall (p : Point.t) (k : SpanPtr), k <> NULL ->
    (SpanAtPoint c p = k <->
     Region.PointInside (Region.mk 0 0 (Size.w (frame c)) (Size.h (frame c))) p = true /\
     exists r, SpanLayout.find (layout c) k = Some r /\ Region.PointInside r p = true).
Proof.
  intros H p k Hk.
  destruct (run_cache_ok _ _ _ _ H (create_cache_ok hp0 frame_)) as [[Hord _ _] _].
  destruct (run_consistent _ _ _ _ H (create_consistent frame_)) as [[_ _ Hapart] _].
  simpl in *. unfold SpanAtPoint.
  destruct (Region.PointInside
              (Region.mk 0 0 (Size.w (frame c)) (Size.h (frame c))) p) eqn:Ein; simpl.
  - destruct (List.find (fun e => Region.PointInside (snd e) p) (layout c))
      as [[q rq]|] eqn:Ef; simpl.
    + apply find_some in Ef. destruct Ef as [Hin Hp]. simpl in Hp.
      pose proof (In_find _ _ _ Hord Hin) as Hq.
      split.
      * intros <-. split; [reflexivity|]. exists rq. auto.
      * intros [_ [r [Hr Hpr]]].
        destruct (Nat.eq_dec q k) as [E|E]; [exact E|].
        pose proof (Hapart _ _ _ _ E Hq Hr) as Hno.
        rewrite (PointInside_both _ _ _ Hp Hpr) in Hno. discriminate.
    + split.
      * intro E. exfalso. apply Hk. now symmetry.
      * intros [_ [r [Hr Hpr]]]. apply find_In in Hr.
        pose proof (find_none _ _ Ef _ Hr) as Hno. simpl in Hno.
        rewrite Hpr in Hno. discriminate.
  - split.
    + intro E. exfalso. apply Hk. now symmetry.
    + intros [E _]. discriminate.
Qed.

(** In the container of spans 1 and 3 the point [(150,30)] belongs to
    span 3. *)
Lemma SpanAtPoint_exact_witness :
  SpanAtPoint two_spans (Point.mk 150 30) = 3%nat <->
  Region.PointInside
    (Region.mk 0 0 (Size.w (frame two_spans)) (Size.h (frame two_spans)))
    (Point.mk 150 30) = true /\
  exists r, SpanLayout.find (layout two_spans) 3%nat = Some r /\
            Region.PointInside r (Point.mk 150 30) = true.
Proof.
  eapply (SpanAtPoint_exact fuel0 (Size.mk 300 100)
            [OpAppendSpan 1%nat; OpAppendSpan 3%nat] heap0 _ two_spans);
    [vm_compute; reflexivity|discriminate].
Defined.
End CacheTheorems.

(* ================================================================== *)
(** * Reading order *)

Section ReadingOrder.
Import TextContainer Layout Cache Scenario.

Lemma next_candidate_cases (c : TextContainer.t) (spanFrame : Size.t)
    (drawPoint p : Point.t) (layoutRgn r : Region.t) (excluded : option Region.t) :
  next_candidate c spanFrame drawPoint layoutRgn excluded = (p, r) ->
  r = Region.make p spanFrame /\
  ((Point.x p = 0 /\ Point.y p = Point.y drawPoint + Size.h spanFrame) \/
   (Point.x p = entry_column spanFrame drawPoint layoutRgn excluded /\
    Point.y p = Point.y drawPoint)).
Proof.
  unfold next_candidate. intro H. injection H as Hp Hr. subst p r.
  split; [reflexivity|].
  fold (entry_column spanFrame drawPoint layoutRgn excluded).
  destruct (negb _ && _); simpl; auto.
Qed.

(** The loop moves the draw point forward only: down, or to the right in
    the row it was entered in. *)
Lemma avoid_excluded_advances (c : TextContainer.t) (spanFrame : Size.t) :
  0 < Size.h spanFrame ->
  forall (fuel : nat) (drawPoint : Point.t) (layoutRgn : Region.t)
         (excluded : option Region.t) (p : Point.t) (r : Region.t) (x0 : Z),
    avoid_excluded fuel c spanFrame drawPoint layoutRgn excluded = Ok (p, r) ->
    x0 <= entry_column spanFrame drawPoint layoutRgn excluded ->
    Point.y drawPoint < Point.y p \/
    (Point.y p = Point.y drawPoint /\ x0 <= Point.x p).
Proof.
  intro Hh. induction fuel as [|fuel IH];
    intros drawPoint layoutRgn excluded p r x0 H Hx0; [discriminate|].
  rewrite avoid_excluded_S in H.
  destruct (next_candidate c spanFrame drawPoint layoutRgn excluded) as [p1 r1] eqn:En.
  apply next_candidate_cases in En. destruct En as [Er1 Hcases].
  destruct (ExcludedRegionForRect c r1) as [e|] eqn:Ee.
  - apply ExcludedRegionForRect_Some in Ee. destruct Ee as [_ Hint].
    assert (Hpast : Point.x p1 <= entry_column spanFrame p1 r1 (Some e)).
    { subst r1. simpl. geometry. }
    destruct Hcases as [[Hx Hy]|[Hx Hy]].
    + destruct (IH _ _ _ _ _ _ H Hpast) as [Hd|[Hd _]]; left; lia.
    + assert (Hpast' : x0 <= entry_column spanFrame p1 r1 (Some e)) by lia.
      destruct (IH _ _ _ _ _ _ H Hpast') as [Hd|[Hd Hd']]; [left|right]; lia.
  - inversion H; subst. destruct Hcases as [[Hx Hy]|[Hx Hy]]; [left|right]; lia.
Qed.

(** X4. [AppendSpan] places the new span after the span that was last, when
    that one has a rectangle in the cache: in a lower row, or in its row
    right of its right edge. *)
Theorem AppendSpan_follows_predecessor (fuel : nat) (span prev : SpanPtr)
    (l : list SpanPtr) (rp : Region.t) (hp hp' : Heap) (c c' : TextContainer.t) :
  spans c = l ++ [prev] ->
  SpanLayout.find (layout c) prev = Some rp ->
  AppendSpan fuel span hp c = Ok (hp', c') ->
  exists r, SpanLayout.find (layout c') span = Some r /\ reads_after rp r.
Proof.
  intros Hs Hrp H. unfold AppendSpan, LayoutSpansStartingAt in H.
  cbn [spans with_spans layout] in H. rewrite Hs in H.
  assert (El : List.length (l ++ [prev]) = S (List.length l))
    by (rewrite length_app; simpl; lia).
  rewrite El in H.
  rewrite nth_error_app2 in H by lia. rewrite El, Nat.sub_diag in H. simpl nth_error in H.
  rewrite nth_error_app1 in H by lia.
  rewrite nth_error_app2 in H by lia. rewrite Nat.sub_diag in H. simpl nth_error in H.
  unfold SpanLayout.index in H. rewrite Hrp in H.
  rewrite skipn_app in H. rewrite El, Nat.sub_diag in H.
  rewrite <- El in H at 1. rewrite skipn_all in H. simpl in H.
  destruct (TextSpan.SpanFrame (hp span)) as [s' spanFrame].
  destruct (avoid_excluded fuel _ spanFrame _ Region.zero None)
    as [[p r]| |] eqn:Ea; simpl in H; try discriminate.
  unfold AddExclusionRect in H.
  destruct (Size.IsEmpty (Region.Dimensions r)) eqn:Eempty; simpl in H; try discriminate.
  inversion H; subst. simpl. exists r. split; [apply find_set_same|].
  pose proof (avoid_excluded_Ok _ _ _ _ _ _ _ _ Ea) as [Er _].
  assert (Hh : 0 < Size.h spanFrame) by (subst r; geometry).
  destruct (avoid_excluded_advances _ _ Hh _ _ _ _ _ _
              (Region.x rp + Region.w rp + 1) Ea) as [Hd|[Hd Hd']].
  - simpl. lia.
  - left. subst r. simpl in *. lia.
  - right. subst r. simpl in *. lia.
Qed.

(** Span 3 appended after span 1: same row, right of it. *)
Lemma AppendSpan_follows_predecessor_witness :
  exists r, SpanLayout.find (layout two_spans) 3%nat = Some r /\
            reads_after (Region.mk 0 20 100 20) r.
Proof.
  eapply (AppendSpan_follows_predecessor fuel0 3%nat 1%nat [] (Region.mk 0 20 100 20)
            heap0 _
            (mk (Size.mk 300 100) [1%nat] [(1%nat, Region.mk 0 20 100 20)]
               [Region.mk 0 20 100 20]) two_spans);
    [reflexivity|reflexivity|vm_compute; reflexivity].
Defined.
End ReadingOrder.

(* ================================================================== *)
(** * Exclusion rectangles stay obstacles *)

Section Obstacles.
Import TextContainer Layout Scenario.

Lemma layout_spans_keeps_cover (fuel : nat) :
  forall (rest : list SpanPtr) (drawPoint : Point.t) (hp hp' : Heap)
         (c c' : TextContainer.t),
    layout_spans fuel rest drawPoint hp c = Ok (hp', c') ->
    forall r, covered (ExclusionRects c) r -> covered (ExclusionRects c') r.
Proof.
  induction rest as [|span rest IH]; intros drawPoint hp hp' c c' H r Hr; simpl in H.
  - inversion H; subst. exact Hr.
  - destruct (TextSpan.SpanFrame (hp span)) as [s' spanFrame].
    destruct (avoid_excluded fuel c spanFrame drawPoint Region.zero None)
      as [[q rq]| |]; simpl in H; try discriminate.
    unfold AddExclusionRect in H.
    destruct (Size.IsEmpty (Region.Dimensions rq)); simpl in H; try discriminate.
    apply (IH _ _ _ _ _ H). simpl. now apply add_rect_covers_old.
Qed.

Lemma LayoutSpansStartingAt_keeps_cover (fuel it : nat) (hp hp' : Heap)
    (c c' : TextContainer.t) :
  LayoutSpansStartingAt fuel it hp c = Ok (hp', c') ->
  forall r, covered (ExclusionRects c) r -> covered (ExclusionRects c') r.
Proof.
  unfold LayoutSpansStartingAt. intros H r Hr.
  destruct (nth_error (spans c) it) as [span|]; [|discriminate].
  destruct it as [|before].
  - destruct (TextSpan.SpanFrame (hp span)) as [s' f].
    exact (layout_spans_keeps_cover _ _ _ _ _ _ _ H r Hr).
  - destruct (nth_error (spans c) before) as [prev|]; [|discriminate].
    destruct (SpanLayout.index (layout c) prev) as [rgn lay].
    exact (layout_spans_keeps_cover _ _ _ _ _ _ _ H r Hr).
Qed.

Lemma run_keeps_cover (fuel : nat) (ops : list op) :
  forall st st' : Heap * TextContainer.t,
    run fuel ops st = Ok st' ->
    forall r, covered (ExclusionRects (snd st)) r ->
              covered (ExclusionRects (snd st')) r.
Proof.
  induction ops as [|o ops IH]; intros st st' H r Hr; simpl in H.
  - inversion H; subst. exact Hr.
  - destruct (step fuel o st) as [[hp1 c1]| |] eqn:Es; simpl in H; try discriminate.
    apply (IH _ _ H). simpl. destruct st as [hp c]. simpl in *.
    destruct o as [span|newSpan existing|span|rect]; simpl in Es.
    + exact (LayoutSpansStartingAt_keeps_cover _ _ _ _ _ _ Es r Hr).
    + unfold InsertSpanAfter in Es. destruct (Nat.eqb existing NULL).
      * inversion Es; subst. exact Hr.
      * destruct (index_of existing (spans c)) as [i|]; [|discriminate].
        exact (LayoutSpansStartingAt_keeps_cover _ _ _ _ _ _ Es r Hr).
    + unfold RemoveSpan in Es.
      destruct (index_of span (spans c)) as [[|before]|]; simpl in Es; try discriminate.
      * destruct (LayoutSpansStartingAt fuel before hp
                    (with_spans c (erase_at (S before) (spans c))))
          as [[hp2 c2]| |] eqn:El; simpl in Es; try discriminate.
        inversion Es; subst.
        exact (LayoutSpansStartingAt_keeps_cover _ _ _ _ _ _ El r Hr).
      * inversion Es; subst. exact Hr.
    + unfold AddExclusionRect in Es.
      destruct (Size.IsEmpty (Region.Dimensions rect)); simpl in Es; [discriminate|].
      inversion Es; subst. simpl. now apply add_rect_covers_old.
Qed.

Lemma IntersectsRegion_outside (q r e : Region.t) :
  Region.InsideRegion r e = true -> Region.IntersectsRegion q r = true ->
  Region.IntersectsRegion q e = true.
Proof. intros. geometry. Qed.

(** X6. [AddExclusionRect] accepts every rectangle that is not empty, and
    from then on, whatever operations follow, [ExcludedRegionForRect]
    finds an obstacle for every rectangle that intersects it (the
    rectangle itself may have been swallowed by a larger one). *)
Theorem excluded_rectangle_stays_obstacle (rect : Region.t) (c : TextContainer.t) :
  Size.IsEmpty (Region.Dimensions rect) = false ->
  exists c1, AddExclusionRect rect c = Ok c1 /\
    forall (fuel : nat) (ops : list op) (hp hp' : Heap) (c' : TextContainer.t),
      run fuel ops (hp, c1) = Ok (hp', c') ->
      forall q, Region.IntersectsRegion q rect = true ->
        exists e, ExcludedRegionForRect c' q = Some e /\
                  Region.IntersectsRegion q e = true.
Proof.
  intro Hne. unfold AddExclusionRect. rewrite Hne. eexists. split; [reflexivity|].
  intros fuel ops hp hp' c' H q Hq.
  pose proof (run_keeps_cover _ _ _ _ H rect) as Hcov. simpl in Hcov.
  destruct (Hcov (add_rect_covers_new _ _)) as [e [He Hin]].
  destruct (ExcludedRegionForRect c' q) as [e'|] eqn:Ee.
  - exists e'. split; [reflexivity|]. now apply ExcludedRegionForRect_Some in Ee.
  - pose proof (ExcludedRegionForRect_None _ _ Ee e He) as Hno.
    rewrite (IntersectsRegion_outside _ _ _ Hin Hq) in Hno. discriminate.
Qed.

Lemma excluded_rectangle_stays_obstacle_witness :
  exists c1, AddExclusionRect (Region.mk 0 20 50 20) container0 = Ok c1 /\
    forall (fuel : nat) (ops : list op) (hp hp' : Heap) (c' : TextContainer.t),
      run fuel ops (hp, c1) = Ok (hp', c') ->
      forall q, Region.IntersectsRegion q (Region.mk 0 20 50 20) = true ->
        exists e, ExcludedRegionForRect c' q = Some e /\
                  Region.IntersectsRegion q e = true.
Proof.
  apply excluded_rectangle_stays_obstacle. reflexivity.
Defined.

Lemma add_rect_idempotent (rect : Region.t) (rects : list Region.t) :
  add_rect rect (add_rect rect rects) = add_rect rect rects.
Proof.
  induction rects as [|a l IH]; simpl.
  - now rewrite InsideRegion_refl.
  - destruct (Region.InsideRegion rect a) eqn:E1; simpl.
    + now rewrite E1.
    + destruct (Region.InsideRegion a rect) eqn:E2; simpl.
      * now rewrite InsideRegion_refl.
      * now rewrite E1, E2, IH.
Qed.

Lemma add_rect_length (rect : Region.t) (rects : list Region.t) :
  (List.length rects <= List.length (add_rect rect rects) <= S (List.length rects))%nat.
Proof.
  induction rects as [|a l IH]; simpl; [lia|].
  destruct (Region.InsideRegion rect a); [simpl; lia|].
  destruct (Region.InsideRegion a rect); simpl; lia.
Qed.

(** X7. Adding a rectangle a second time changes nothing, and one call makes
    the vector of exclusion rectangles longer by one at most and never
    shorter; spans and cache are not touched. *)
Theorem AddExclusionRect_idempotent (rect : Region.t) (c c1 : TextContainer.t) :
  AddExclusionRect rect c = Ok c1 ->
  AddExclusionRect rect c1 = Ok c1 /\
  (List.length (ExclusionRects c) <= List.length (ExclusionRects c1)
     <= S (List.length (ExclusionRects c)))%nat /\
  spans c1 = spans c /\ layout c1 = layout c /\ frame c1 = frame c.
Proof.
  unfold AddExclusionRect.
  destruct (Size.IsEmpty (Region.Dimensions rect)); [discriminate|].
  intro H. inversion H; subst. unfold with_rects. simpl.
  rewrite add_rect_idempotent. split; [reflexivity|].
  split; [apply add_rect_length|auto].
Qed.

Lemma AddExclusionRect_idempotent_witness :
  AddExclusionRect (Region.mk 0 0 30 10)
    (with_rects container0 [Region.mk 0 0 30 10; Region.mk 20 0 10 10])
  = Ok (with_rects container0 [Region.mk 0 0 30 10; Region.mk 20 0 10 10]).
Proof.
  apply (AddExclusionRect_idempotent (Region.mk 0 0 30 10)
           (with_rects container0 [Region.mk 0 0 10 10; Region.mk 20 0 10 10])).
  reflexivity.
Defined.
End Obstacles.

(* ================================================================== *)
(** * What insertion and removal do to the sequence of spans *)

Section SequenceEdits.
Import TextContainer Layout Scenario.

Lemma index_of_None (p : SpanPtr) (l : list SpanPtr) :
  index_of p l = None <-> ~ In p l.
Proof.
  induction l as [|q l IH]; simpl; [tauto|].
  destruct (Nat.eqb_spec q p) as [->|Hne].
  - split; [discriminate|]. intro H. exfalso. apply H. now left.
  - destruct (index_of p l) as [i|]; simpl.
    + split; [discriminate|]. intro H. exfalso.
      assert (Hn : ~ In p l) by tauto.
      apply IH in Hn. discriminate.
    + split; [|reflexivity]. intros _ [E|Hin]; [contradiction|].
      exact (proj1 IH eq_refl Hin).
Qed.

(** Where [std::find] stops, and what [erase] there and [insert] behind
    it make of the list. *)
Lemma index_of_split (p x : SpanPtr) (l : list SpanPtr) :
  forall i, index_of p l = Some i ->
    exists l1 l2, l = l1 ++ p :: l2 /\ List.length l1 = i /\ ~ In p l1 /\
                  erase_at i l = l1 ++ l2 /\
                  insert_at (S i) x l = l1 ++ p :: x :: l2.
Proof.
  induction l as [|q l IH]; simpl; intros i H; [discriminate|].
  destruct (Nat.eqb_spec q p) as [->|Hne].
  - inversion H; subst. exists [], l. repeat split; auto.
  - destruct (index_of p l) as [i'|]; simpl in H; [|discriminate].
    inversion H; subst.
    destruct (IH i' eq_refl) as [l1 [l2 [El [Hlen [Hnot [He Hi]]]]]].
    exists (q :: l1), l2. unfold erase_at, insert_at in *.
    split; [simpl; f_equal; exact El|].
    split; [simpl; f_equal; exact Hlen|].
    split; [intros [E|Hin]; [contradiction|now apply Hnot]|].
    split.
    + change (q :: (firstn i' l ++ skipn (S i') l) = q :: (l1 ++ l2)).
      f_equal. exact He.
    + change (q :: (firstn (S i') l ++ x :: skipn (S i') l)
              = q :: (l1 ++ p :: x :: l2)).
      f_equal. exact Hi.
Qed.

(** X8. [RemoveSpan] of a span that is not in the sequence returns, with
    [NULL], and changes nothing.  When [RemoveSpan] of a span of the
    sequence returns, it returns the span and has taken its first
    occurrence out of the sequence, the other spans keeping their
    order. *)
Theorem RemoveSpan_unlinks (fuel : nat) (span : SpanPtr) (hp : Heap)
    (c : TextContainer.t) :
  (~ In span (spans c) -> RemoveSpan fuel span hp c = Ok (hp, c, NULL)) /\
  (In span (spans c) -> forall hp' c' ret,
     RemoveSpan fuel span hp c = Ok (hp', c', ret) ->
     ret = span /\
     exists l1 l2, spans c = l1 ++ span :: l2 /\ ~ In span l1 /\
                   spans c' = l1 ++ l2).
Proof.
  unfold RemoveSpan. split.
  - intro Hnot. apply index_of_None in Hnot. now rewrite Hnot.
  - intros Hin hp' c' ret H.
    destruct (index_of span (spans c)) as [i|] eqn:Ei.
    + destruct (index_of_split _ span _ _ Ei) as [l1 [l2 [El [Hlen [Hnot [He _]]]]]].
      destruct i as [|before]; [discriminate|].
      destruct (LayoutSpansStartingAt fuel before hp
                  (with_spans c (erase_at (S before) (spans c))))
        as [[hp1 c1]| |] eqn:Ela; simpl in H; try discriminate.
      inversion H; subst. split; [reflexivity|].
      apply LayoutSpansStartingAt_frame in Ela. destruct Ela as [Hs _].
      cbn [spans with_spans] in Hs.
      exists l1, l2. repeat split; auto. congruence.
    + apply index_of_None in Ei. contradiction.
Qed.

(** Span 4 is not among the two spans; span 2 is the third of the three
    spans. *)
Lemma RemoveSpan_unlinks_witness :
  RemoveSpan fuel0 4%nat heap0 two_spans = Ok (heap0, two_spans, NULL) /\
  exists l1 l2, spans three_spans = l1 ++ 2%nat :: l2 /\ ~ In 2%nat l1 /\
                spans three_spans_removed = l1 ++ l2.
Proof.
  split.
  - apply (proj1 (RemoveSpan_unlinks fuel0 4%nat heap0 two_spans)).
    simpl. intuition discriminate.
  - edestruct (fun hp' =>
      proj2 (RemoveSpan_unlinks fuel0 2%nat heap0 three_spans)
        ltac:(simpl; tauto) hp' three_spans_removed 2%nat) as [_ W];
      [vm_compute; reflexivity|exact W].
Defined.

(** X10. [InsertSpanAfter] with [existing] [NULL] returns with the new
    span at the head of the sequence and nothing else changed.  When
    [InsertSpanAfter] behind a span of the sequence returns, the new span
    stands right behind the first occurrence of [existing], the other
    spans keeping their order. *)
Theorem InsertSpanAfter_links (fuel : nat) (newSpan existing : SpanPtr)
    (hp : Heap) (c : TextContainer.t) :
  (existing = NULL ->
   InsertSpanAfter fuel newSpan existing hp c
   = Ok (hp, with_spans c (newSpan :: spans c))) /\
  (existing <> NULL -> In existing (spans c) -> forall hp' c',
     InsertSpanAfter fuel newSpan existing hp c = Ok (hp', c') ->
     exists l1 l2, spans c = l1 ++ existing :: l2 /\ ~ In existing l1 /\
                   spans c' = l1 ++ existing :: newSpan :: l2).
Proof.
  unfold InsertSpanAfter. split.
  - intros ->. reflexivity.
  - intros E Hin hp' c' H.
    destruct (Nat.eqb_spec existing NULL) as [E'|_]; [contradiction|].
    destruct (index_of existing (spans c)) as [i|] eqn:Ei; [|discriminate].
    destruct (index_of_split _ newSpan _ _ Ei) as [l1 [l2 [El [Hlen [Hnot [_ Hi]]]]]].
    apply LayoutSpansStartingAt_frame in H. destruct H as [Hs _].
    cbn [spans with_spans] in Hs.
    exists l1, l2. repeat split; auto. congruence.
Qed.

(** Span 2 put at the head of the two spans, and behind span 1. *)
Lemma InsertSpanAfter_links_witness :
  InsertSpanAfter fuel0 2%nat NULL heap0 two_spans
    = Ok (heap0, with_spans two_spans (2%nat :: spans two_spans)) /\
  exists l1 l2, spans two_spans = l1 ++ 1%nat :: l2 /\ ~ In 1%nat l1 /\
                spans two_spans_inserted = l1 ++ 1%nat :: 2%nat :: l2.
Proof.
  split.
  - apply (proj1 (InsertSpanAfter_links fuel0 2%nat NULL heap0 two_spans)).
    reflexivity.
  - edestruct (fun hp' =>
      proj2 (InsertSpanAfter_links fuel0 2%nat 1%nat heap0 two_spans)
        ltac:(discriminate) ltac:(simpl; tauto) hp' two_spans_inserted) as [l1 W];
      [vm_compute; reflexivity|exists l1; exact W].
Defined.
End SequenceEdits.

(* ================================================================== *)
(** * Rendering is done once *)

Section RenderOnce.
Import TextContainer Cache Scenario.

(** X12. [RenderedSpan] never returns [NULL]; what it returns is the sprite
    the span holds afterwards; and a second call returns the same sprite
    and leaves the span as it is: the span is rendered once. *)
Theorem RenderedSpan_renders_once (s : TextSpan.t) :
  snd (TextSpan.RenderedSpan s) <> None /\
  TextSpan.spanSprite (fst (TextSpan.RenderedSpan s)) = snd (TextSpan.RenderedSpan s) /\
  TextSpan.RenderedSpan (fst (TextSpan.RenderedSpan s)) = TextSpan.RenderedSpan s.
Proof.
  unfold TextSpan.RenderedSpan.
  destruct (TextSpan.spanSprite s) as [sprite|] eqn:E; simpl.
  - rewrite E. repeat split; try discriminate; reflexivity.
  - repeat split; try discriminate; reflexivity.
Qed.

Lemma RenderedSpan_renders_once_aux (s : TextSpan.t) :
  snd (TextSpan.RenderedSpan s) <> None /\
  TextSpan.spanSprite (fst (TextSpan.RenderedSpan s)) = snd (TextSpan.RenderedSpan s).
Proof.
  unfold TextSpan.RenderedSpan.
  destruct (TextSpan.spanSprite s) as [sprite|] eqn:E; simpl.
  - rewrite E. split; [discriminate|reflexivity].
  - split; [discriminate|reflexivity].
Qed.

Lemma RenderedSpan_rendered (s : TextSpan.t) :
  TextSpan.spanSprite s <> None ->
  TextSpan.RenderedSpan s = (s, TextSpan.spanSprite s).
Proof.
  unfold TextSpan.RenderedSpan. destruct (TextSpan.spanSprite s); [reflexivity|].
  intro H. now contradiction H.
Qed.

Lemma draw_spans_cons (x y : Z) (k : SpanPtr) (r : Region.t) (l : SpanLayout.t)
    (hp : Heap) :
  draw_spans x y ((k, r) :: l) hp =
  (fst (draw_spans x y l (heap_set hp k (fst (TextSpan.RenderedSpan (hp k))))),
   DrawRect (Region.mk (Region.x r + x) (Region.y r + y) (Region.w r) (Region.h r))
   :: BlitSprite (snd (TextSpan.RenderedSpan (hp k))) (Region.x r + x) (Region.y r + y)
        (Region.mk (Region.x r + x) (Region.y r + y) (Region.w r) (Region.h r))
   :: snd (draw_spans x y l (heap_set hp k (fst (TextSpan.RenderedSpan (hp k)))))).
Proof.
  simpl. destruct (TextSpan.RenderedSpan (hp k)) as [s' sprite]. simpl.
  now destruct (draw_spans x y l (heap_set hp k s')).
Qed.

(** Drawing leaves a span that has its sprite as it is. *)
Lemma draw_spans_keeps_rendered (x y : Z) :
  forall (l : SpanLayout.t) (hp : Heap) (q : SpanPtr),
    TextSpan.spanSprite (hp q) <> None -> fst (draw_spans x y l hp) q = hp q.
Proof.
  induction l as [|[k r] l IH]; intros hp q Hq; [reflexivity|].
  rewrite draw_spans_cons. simpl.
  assert (E : heap_set hp k (fst (TextSpan.RenderedSpan (hp k))) q = hp q).
  { unfold heap_set. destruct (Nat.eqb_spec q k) as [->|_]; [|reflexivity].
    now rewrite RenderedSpan_rendered. }
  rewrite IH; rewrite E; auto.
Qed.

Lemma draw_spans_renders (x y : Z) :
  forall (l : SpanLayout.t) (hp : Heap) (k : SpanPtr) (r : Region.t),
    In (k, r) l -> TextSpan.spanSprite (fst (draw_spans x y l hp) k) <> None.
Proof.
  induction l as [|[k' r'] l IH]; intros hp k r Hin; [destruct Hin|].
  rewrite draw_spans_cons. simpl. destruct Hin as [E|Hin]; [|eauto].
  inversion E; subst k' r'.
  assert (Hs : TextSpan.spanSprite
                 (heap_set hp k (fst (TextSpan.RenderedSpan (hp k))) k) <> None).
  { unfold heap_set. rewrite Nat.eqb_refl.
    destruct (RenderedSpan_renders_once_aux (hp k)) as [H1 H2]. congruence. }
  rewrite draw_spans_keeps_rendered; exact Hs.
Qed.

Lemma draw_spans_keeps_others (x y : Z) :
  forall (l : SpanLayout.t) (hp : Heap) (q : SpanPtr),
    ~ In q (map fst l) -> fst (draw_spans x y l hp) q = hp q.
Proof.
  induction l as [|[k r] l IH]; intros hp q Hq; [reflexivity|].
  rewrite draw_spans_cons. simpl in *. rewrite IH by tauto.
  unfold heap_set. destruct (Nat.eqb_spec q k) as [->|_]; [|reflexivity].
  exfalso. apply Hq. now left.
Qed.

Lemma calls_of_cons (x y : Z) (hp : Heap) (k : SpanPtr) (r : Region.t)
    (l : SpanLayout.t) :
  calls_of x y hp ((k, r) :: l) =
  DrawRect (Region.mk (Region.x r + x) (Region.y r + y) (Region.w r) (Region.h r))
  :: BlitSprite (TextSpan.spanSprite (hp k)) (Region.x r + x) (Region.y r + y)
       (Region.mk (Region.x r + x) (Region.y r + y) (Region.w r) (Region.h r))
  :: calls_of x y hp l.
Proof. reflexivity. Qed.

Lemma calls_of_ext (x y : Z) (hpA hpB : Heap) :
  forall l : SpanLayout.t,
    (forall k r, In (k, r) l -> hpA k = hpB k) ->
    calls_of x y hpA l = calls_of x y hpB l.
Proof.
  induction l as [|[k r] l IH]; intro H; [reflexivity|].
  rewrite !calls_of_cons.
  rewrite (H k r) by now left. rewrite IH; [reflexivity|].
  intros k' r' Hin. apply (H k' r'). now right.
Qed.

(** The calls of a drawing are those of the cache with the sprites the
    spans hold after it. *)
Lemma draw_spans_calls (x y : Z) :
  forall (l : SpanLayout.t) (hp : Heap),
    snd (draw_spans x y l hp) = calls_of x y (fst (draw_spans x y l hp)) l.
Proof.
  induction l as [|[k r] l IH]; intro hp; [reflexivity|].
  rewrite draw_spans_cons. cbn [fst snd].
  set (hp1 := heap_set hp k (fst (TextSpan.RenderedSpan (hp k)))).
  assert (Hk : hp1 k = fst (TextSpan.RenderedSpan (hp k)))
    by (unfold hp1, heap_set; now rewrite Nat.eqb_refl).
  destruct (RenderedSpan_renders_once_aux (hp k)) as [H1 H2].
  assert (Hr : TextSpan.spanSprite (hp1 k) <> None) by (rewrite Hk; congruence).
  rewrite calls_of_cons.
  rewrite (draw_spans_keeps_rendered x y l hp1 k Hr), Hk, H2, <- IH. reflexivity.
Qed.

(** X13. On a cache that has no [NULL] key, [DrawContents] leaves every
    span of the cache with its sprite and issues, per entry and in the
    order of the keys, the outline of the cached rectangle moved by the
    offset and the blit of the span's sprite there.  A further drawing, at
    any offset, renders nothing: it leaves every span as it is and issues
    the calls of the cache again.  A [NULL] key, which [RenderedSpan]
    would dereference, is left out. *)
Theorem DrawContents_renders_once (x y : Z) (hp : Heap) (c : TextContainer.t) :
  ~ In NULL (map fst (layout c)) ->
  let hp1 := fst (DrawContents x y hp c) in
  (forall k r, SpanLayout.find (layout c) k = Some r ->
     TextSpan.spanSprite (hp1 k) <> None) /\
  snd (DrawContents x y hp c) = calls_of x y hp1 (layout c) /\
  forall x' y',
    snd (DrawContents x' y' hp1 c) = calls_of x' y' hp1 (layout c) /\
    forall q, fst (DrawContents x' y' hp1 c) q = hp1 q.
Proof.
  intros _. unfold DrawContents. cbn zeta.
  assert (Hall : forall k r, In (k, r) (layout c) ->
            TextSpan.spanSprite (fst (draw_spans x y (layout c) hp) k) <> None)
    by (intros; eapply draw_spans_renders; eauto).
  split; [|split].
  - intros k r Hk. apply find_In in Hk. eauto.
  - apply draw_spans_calls.
  - intros x' y'. split.
    + rewrite draw_spans_calls. apply calls_of_ext.
      intros k r Hin. apply draw_spans_keeps_rendered. eauto.
    + intro q. destruct (in_dec Nat.eq_dec q (map fst (layout c))) as [Hin|Hout].
      * apply in_map_iff in Hin. destruct Hin as [[k r] [E Hin]]. simpl in E. subst k.
        apply draw_spans_keeps_rendered. eauto.
      * now apply draw_spans_keeps_others.
Qed.
End RenderOnce.

(* ================================================================== *)
(** * Instances of the layout returning *)

Section ReturnsInstances.
Import TextContainer Layout Scenario.

Lemma AppendSpan_returns_witness :
  exists (fuel : nat) (st : Heap * TextContainer.t),
    forall fuel', (fuel <= fuel')%nat -> AppendSpan fuel' 2%nat heap0 two_spans = Ok st.
Proof. apply AppendSpan_returns; [discriminate|reflexivity]. Defined.

(** The two spans drawn at the offset [(5,7)], and drawn again. *)
Lemma DrawContents_renders_once_witness :
  let hp1 := fst (DrawContents 5 7 heap0 two_spans) in
  TextSpan.spanSprite (hp1 3%nat) <> None /\
  snd (DrawContents 5 7 heap0 two_spans) = Cache.calls_of 5 7 hp1 (layout two_spans) /\
  snd (DrawContents 0 0 hp1 two_spans) = Cache.calls_of 0 0 hp1 (layout two_spans).
Proof.
  intro hp1.
  destruct (DrawContents_renders_once 5 7 heap0 two_spans) as [Hs [Hc Hagain]].
  - simpl. intuition discriminate.
  - split; [|split].
    + apply (Hs 3%nat (Region.mk 101 20 100 20)). reflexivity.
    + exact Hc.
    + exact (proj1 (Hagain 0 0)).
Defined.
End ReturnsInstances.

(* ================================================================== *)
(** * GlobalTimer: the queue of animations *)

Section TimerQueue.
Import GlobalTimer.
Variable ULONG_MAX : Z.

Lemma skipn_firstn_app (A : Type) (n : nat) (l X : list A) :
  (n <= List.length l)%nat -> skipn n (firstn n l ++ X) = X.
Proof.
  intro H. rewrite skipn_app, firstn_length_le by exact H.
  rewrite skipn_all2 by (rewrite firstn_length_le; auto).
  now rewrite Nat.sub_diag.
Qed.

Lemma length_firstn_app (A : Type) (n : nat) (l X : list A) :
  (n <= List.length l)%nat ->
  List.length (firstn n l ++ X) = (n + List.length X)%nat.
Proof. intro H. now rewrite length_app, firstn_length_le. Qed.

Lemma In_insert_by_time (a e : AnimationRef) (l : list AnimationRef) :
  In e (insert_by_time a l) <-> e = a \/ In e l.
Proof.
  induction l as [|b l IH]; simpl.
  - intuition.
  - destruct (time a <? time b); simpl; [intuition|]. rewrite IH. intuition.
Qed.

Lemma insert_by_time_length (a : AnimationRef) (l : list AnimationRef) :
  List.length (insert_by_time a l) = S (List.length l).
Proof.
  induction l as [|b l IH]; simpl; [reflexivity|].
  destruct (time a <? time b); simpl; [reflexivity|now rewrite IH].
Qed.

Lemma insert_by_time_ordered (a : AnimationRef) (l : list AnimationRef) :
  time_ordered l -> time_ordered (insert_by_time a l).
Proof.
  induction l as [|b l IH]; simpl.
  - intros _. split; [intros e []|exact I].
  - intros [Hb Hl]. destruct (Z.ltb_spec (time a) (time b)); simpl.
    + split; [|split; assumption].
      intros e [<-|He]; [lia|]. specialize (Hb e He). lia.
    + split; [|now apply IH].
      intros e He. apply In_insert_by_time in He. destruct He as [->|He]; auto.
Qed.

Lemma time_ordered_app_r (l1 l2 : list AnimationRef) :
  time_ordered (l1 ++ l2) -> time_ordered l2.
Proof. induction l1 as [|a l1 IH]; simpl; [auto|]. intros [_ H]. auto. Qed.

(** Where the reference goes: behind every reference that is not later,
    before one that is. *)
Lemma insert_by_time_split (a : AnimationRef) (l : list AnimationRef) :
  exists l1 l2, l = l1 ++ l2 /\ insert_by_time a l = l1 ++ a :: l2 /\
    (forall e, In e l1 -> time e <= time a) /\
    (forall e, hd_error l2 = Some e -> time a < time e).
Proof.
  induction l as [|b l IH]; simpl.
  - exists [], []. split; [reflexivity|]. split; [reflexivity|].
    split; [intros e []|discriminate].
  - destruct (Z.ltb_spec (time a) (time b)).
    + exists [], (b :: l). split; [reflexivity|]. split; [reflexivity|].
      split; [intros e []|]. intros e E. inversion E; subst. assumption.
    + destruct IH as [l1 [l2 [El [Ei [H1 H2]]]]].
      exists (b :: l1), l2. simpl.
      split; [now rewrite <- El|]. split; [now rewrite Ei|].
      split; [|exact H2]. intros e [<-|He]; auto.
Qed.

(** What [AddAnimation] does to a well-formed timer. *)
Lemma AddAnimation_live (ctl : CtlPtr) (d now : Z) (g : t) :
  wf g ->
  exists g', AddAnimation ULONG_MAX ctl d now g = Ok g' /\
    live g' = insert_by_time (mkRef ctl ((d + now) mod (ULONG_MAX + 1))) (live g) /\
    wf g' /\
    first_animation g' = (first_animation g - 1)%nat /\
    List.length (animations g') =
      (if Nat.eqb (first_animation g) 0 then S (List.length (animations g))
       else List.length (animations g)).
Proof.
  unfold wf, live, AddAnimation. destruct g as [first l]. simpl. intro Hwf.
  destruct first as [|k]; simpl.
  - eexists. split; [reflexivity|]. simpl.
    repeat split; auto; [lia|]. now rewrite insert_by_time_length.
  - destruct l as [|a l]; simpl in *; [lia|].
    rewrite Nat.sub_0_r.
    destruct (Nat.ltb_spec (List.length l) k) as [Hlt|Hge]; [lia|].
    eexists. split; [reflexivity|]. simpl.
    rewrite skipn_firstn_app by lia. rewrite length_firstn_app by lia.
    rewrite insert_by_time_length, length_skipn.
    repeat split; auto; lia.
Qed.

(** X16. [AddAnimation] on a well-formed timer whose scheduled references are
    ordered by time returns, keeps the timer well-formed and the scheduled
    references ordered, schedules one reference more, and allocates only
    when no reference is free: otherwise the vector keeps its size. *)
Theorem AddAnimation_keeps_queue (ctl : CtlPtr) (d now : Z) (g : t) :
  wf g -> time_ordered (live g) ->
  exists g', AddAnimation ULONG_MAX ctl d now g = Ok g' /\
    wf g' /\ time_ordered (live g') /\
    List.length (live g') = S (List.length (live g)) /\
    List.length (animations g') =
      (if Nat.eqb (first_animation g) 0 then S (List.length (animations g))
       else List.length (animations g)).
Proof.
  intros Hwf Hord.
  destruct (AddAnimation_live ctl d now g Hwf) as [g' [E [Hl [Hwf' [_ Hlen]]]]].
  exists g'. split; [exact E|]. split; [exact Hwf'|].
  rewrite Hl. split; [now apply insert_by_time_ordered|].
  split; [apply insert_by_time_length|exact Hlen].
Qed.

(** X17. The new reference is scheduled behind all references that are not
    later than it, those with its own time included, and before all later
    ones; the other scheduled references keep their order. *)
Theorem AddAnimation_position (ctl : CtlPtr) (d now : Z) (g : t) :
  wf g -> time_ordered (live g) ->
  exists g' l1 l2,
    AddAnimation ULONG_MAX ctl d now g = Ok g' /\
    live g = l1 ++ l2 /\
    live g' = l1 ++ mkRef ctl ((d + now) mod (ULONG_MAX + 1)) :: l2 /\
    (forall e, In e l1 -> time e <= (d + now) mod (ULONG_MAX + 1)) /\
    (forall e, In e l2 -> (d + now) mod (ULONG_MAX + 1) < time e).
Proof.
  intros Hwf Hord.
  destruct (AddAnimation_live ctl d now g Hwf) as [g' [E [Hl _]]].
  destruct (insert_by_time_split (mkRef ctl ((d + now) mod (ULONG_MAX + 1))) (live g))
    as [l1 [l2 [El [Ei [H1 H2]]]]].
  exists g', l1, l2. split; [exact E|]. split; [exact El|].
  split; [congruence|]. split; [exact H1|].
  rewrite El in Hord. apply time_ordered_app_r in Hord.
  destruct l2 as [|b l2]; [intros e []|].
  specialize (H2 b eq_refl). simpl in H2. destruct Hord as [Hb _].
  intros e [<-|He]; [exact H2|]. specialize (Hb e He). lia.
Qed.
End TimerQueue.

(* ================================================================== *)
(** * GlobalTimer: cancelling and running animations *)

Section TimerUpdates.
Import GlobalTimer.
Variable ULONG_MAX : Z.
Variable UpdateAnimation : CtlPtr -> t -> t.
Hypothesis UpdateAnimation_inert : inert UpdateAnimation.

Lemma time_ordered_map (f : AnimationRef -> AnimationRef) (l : list AnimationRef) :
  (forall e, time (f e) = time e) -> time_ordered l -> time_ordered (map f l).
Proof.
  intro Hf. induction l as [|a l IH]; simpl; [auto|].
  intros [Ha Hl]. split; [|auto].
  intros e He. apply in_map_iff in He. destruct He as [e0 [<- He0]].
  rewrite !Hf. auto.
Qed.

Lemma cancel_time (ctl : CtlPtr) (e : AnimationRef) : time (cancel ctl e) = time e.
Proof. unfold cancel. now destruct (Nat.eqb (ctlanim e) ctl). Qed.

Lemma RemoveAnimation_live (ctl : CtlPtr) (g : t) :
  wf g ->
  exists g', RemoveAnimation ctl g = Ok g' /\
    first_animation g' = first_animation g /\
    live g' = map (cancel ctl) (live g) /\
    map time (animations g') = map time (animations g).
Proof.
  unfold wf, RemoveAnimation, live. destruct g as [first l]. simpl. intro Hwf.
  destruct (Nat.ltb_spec (List.length l) first) as [Hlt|_]; [lia|].
  eexists. split; [reflexivity|]. simpl. split; [reflexivity|].
  split; [now apply skipn_firstn_app|].
  rewrite map_app, map_map.
  rewrite (map_ext _ time (cancel_time ctl)).
  now rewrite <- map_app, firstn_skipn.
Qed.

(** X18. [RemoveAnimation] on a well-formed timer returns and cancels every
    scheduled reference to the control: none is left that refers to it.
    It moves nothing: the times of all references, the position of the
    first scheduled one and the scheduled references to other controls
    are as before, and so is the order by time. *)
Theorem RemoveAnimation_cancels (ctl : CtlPtr) (g : t) :
  wf g ->
  exists g', RemoveAnimation ctl g = Ok g' /\
    first_animation g' = first_animation g /\
    map time (animations g') = map time (animations g) /\
    (ctl <> NULL -> forall e, In e (live g') -> ctlanim e <> ctl) /\
    (forall i e, nth_error (live g) i = Some e -> ctlanim e <> ctl ->
                 nth_error (live g') i = Some e) /\
    (time_ordered (live g) -> time_ordered (live g')).
Proof.
  intro Hwf.
  destruct (RemoveAnimation_live ctl g Hwf) as [g' [E [Hf [Hl Ht]]]].
  exists g'. split; [exact E|]. split; [exact Hf|]. split; [exact Ht|].
  rewrite Hl. split; [|split].
  - intros Hnn e He. apply in_map_iff in He. destruct He as [e0 [<- _]].
    unfold cancel. destruct (Nat.eqb_spec (ctlanim e0) ctl); simpl; auto.
  - intros i e Hi Hne. rewrite nth_error_map, Hi. simpl. unfold cancel.
    destruct (Nat.eqb_spec (ctlanim e) ctl); [contradiction|reflexivity].
  - apply time_ordered_map. apply cancel_time.
Qed.

Lemma UpdateAnimations_S (fuel : nat) (thisTime : Z) (g : t) :
  UpdateAnimations UpdateAnimation (S fuel) thisTime g =
  if Nat.eqb (first_animation g) (List.length (animations g)) then Ok (g, [])
  else
    match nth_error (animations g) (first_animation g) with
    | None => Abort
    | Some anim =>
        if Nat.eqb (ctlanim anim) NULL then
          UpdateAnimations UpdateAnimation fuel thisTime
            (mk (S (first_animation g)) (animations g))
        else if time anim <=? thisTime then
          r <- UpdateAnimations UpdateAnimation fuel thisTime
                 (mk (S (first_animation g)) (animations g)) ;;
          Ok (fst r, ctlanim anim :: snd r)
        else Ok (g, [])
    end.
Proof.
  simpl. destruct (Nat.eqb (first_animation g) (List.length (animations g)));
    [reflexivity|].
  destruct (nth_error (animations g) (first_animation g)) as [anim|]; [|reflexivity].
  now rewrite UpdateAnimation_inert.
Qed.

Lemma filter_none (A : Type) (f : A -> bool) (l : list A) :
  (forall x, In x l -> f x = false) -> filter f l = [].
Proof.
  induction l as [|a l IH]; simpl; [reflexivity|]. intro H.
  rewrite (H a) by now left. apply IH. intros x Hx. apply H. now right.
Qed.

(** The loop over ordered references [l] that stand behind [pre]. *)
Lemma UpdateAnimations_run (thisTime : Z) :
  forall l : list AnimationRef, time_ordered l ->
    exists k, (k <= List.length l)%nat /\
      (forall e, In e (skipn k l) -> thisTime < time e) /\
      forall (pre : list AnimationRef) (fuel : nat),
        (List.length l < fuel)%nat ->
        UpdateAnimations UpdateAnimation fuel thisTime (mk (List.length pre) (pre ++ l))
        = Ok (mk (List.length pre + k) (pre ++ l),
              map ctlanim (filter (due thisTime) l)).
Proof.
  induction l as [|a l IH]; intro Hord.
  - exists O. split; [simpl; lia|]. split; [intros e []|].
    intros pre fuel Hf. destruct fuel as [|fuel]; [simpl in Hf; lia|].
    rewrite UpdateAnimations_S. cbn [first_animation animations].
    rewrite app_nil_r, Nat.eqb_refl, Nat.add_0_r. reflexivity.
  - destruct Hord as [Ha Hl]. destruct (IH Hl) as [k [Hk [Hlate Hrun]]].
    assert (Hstep : forall pre fuel, (List.length l < fuel)%nat ->
              UpdateAnimations UpdateAnimation fuel thisTime
                (mk (S (List.length pre)) (pre ++ a :: l))
              = Ok (mk (List.length pre + S k) (pre ++ a :: l),
                    map ctlanim (filter (due thisTime) l))).
    { intros pre fuel Hf. specialize (Hrun (pre ++ [a]) fuel Hf).
      rewrite <- app_assoc, length_app in Hrun. simpl in Hrun.
      replace (List.length pre + 1)%nat with (S (List.length pre)) in Hrun by lia.
      replace (S (List.length pre) + k)%nat with (List.length pre + S k)%nat
        in Hrun by lia.
      exact Hrun. }
    assert (Hhead : forall pre fuel,
              UpdateAnimations UpdateAnimation (S fuel) thisTime
                (mk (List.length pre) (pre ++ a :: l))
              = if Nat.eqb (ctlanim a) NULL then
                  UpdateAnimations UpdateAnimation fuel thisTime
                    (mk (S (List.length pre)) (pre ++ a :: l))
                else if time a <=? thisTime then
                  r <- UpdateAnimations UpdateAnimation fuel thisTime
                         (mk (S (List.length pre)) (pre ++ a :: l)) ;;
                  Ok (fst r, ctlanim a :: snd r)
                else Ok (mk (List.length pre) (pre ++ a :: l), [])).
    { intros pre fuel. rewrite UpdateAnimations_S. cbn [first_animation animations].
      assert (En : Nat.eqb (List.length pre) (List.length (pre ++ a :: l)) = false)
        by (apply Nat.eqb_neq; rewrite length_app; simpl; lia).
      rewrite En, nth_error_app2, Nat.sub_diag by lia. reflexivity. }
    destruct (Nat.eqb (ctlanim a) NULL) eqn:Enull.
    + exists (S k). split; [simpl; lia|]. split; [exact Hlate|].
      intros pre fuel Hf. destruct fuel as [|fuel]; [lia|]. simpl in Hf.
      rewrite Hhead, Hstep by lia.
      assert (Ed : due thisTime a = false) by (unfold due; now rewrite Enull).
      cbn [filter]. now rewrite Ed.
    + destruct (Z.leb_spec (time a) thisTime) as [Hdue|Hlater].
      * exists (S k). split; [simpl; lia|]. split; [exact Hlate|].
        intros pre fuel Hf. destruct fuel as [|fuel]; [lia|]. simpl in Hf.
        rewrite Hhead, Hstep by lia.
        assert (Ed : due thisTime a = true).
        { unfold due. rewrite Enull. simpl. now apply Z.leb_le. }
        cbn [filter]. rewrite Ed. reflexivity.
      * exists O. split; [lia|]. split.
        -- simpl. intros e [<-|He]; [lia|]. specialize (Ha e He). lia.
        -- intros pre fuel Hf. destruct fuel as [|fuel]; [lia|].
           rewrite Hhead, Nat.add_0_r. rewrite filter_none; [reflexivity|].
           intros e He. unfold due. apply andb_false_iff. right. apply Z.leb_gt.
           destruct He as [<-|He]; [lia|]. specialize (Ha e He). lia.
Qed.

(** The loop on a well-formed timer with ordered references returns. *)
Lemma UpdateAnimations_ordered_run (thisTime : Z) (g : t) :
  wf g -> time_ordered (live g) ->
  exists g',
    forall fuel, (List.length (live g) < fuel)%nat ->
      UpdateAnimations UpdateAnimation fuel thisTime g
      = Ok (g', map ctlanim (filter (due thisTime) (live g))).
Proof.
  unfold wf, live. destruct g as [first l]. simpl. intros Hwf Hord.
  destruct (UpdateAnimations_run thisTime _ Hord) as [k [_ [_ Hrun]]].
  exists (mk (first + k) l). intros fuel Hf.
  specialize (Hrun (firstn first l) fuel Hf).
  rewrite firstn_skipn, firstn_length_le in Hrun by exact Hwf. exact Hrun.
Qed.

(** X19. With a callback that leaves the timer alone, [UpdateAnimations] on a
    well-formed timer whose scheduled references are ordered by time
    returns.  It calls, in order, the controls of the scheduled references
    that are not cancelled and whose time has come, takes a front part of
    the scheduled references off the schedule and leaves only references
    whose time is still to come; the vector itself is not changed. *)
Theorem UpdateAnimations_runs_due (thisTime : Z) (g : t) :
  wf g -> time_ordered (live g) ->
  exists g',
    (forall fuel, (List.length (live g) < fuel)%nat ->
       UpdateAnimations UpdateAnimation fuel thisTime g
       = Ok (g', map ctlanim (filter (due thisTime) (live g)))) /\
    animations g' = animations g /\ wf g' /\
    (exists passed, live g = passed ++ live g') /\
    (forall e, In e (live g') -> thisTime < time e).
Proof.
  unfold wf, live. destruct g as [first l]. simpl. intros Hwf Hord.
  destruct (UpdateAnimations_run thisTime _ Hord) as [k [Hk [Hlate Hrun]]].
  rewrite length_skipn in Hk.
  exists (mk (first + k) l). simpl.
  assert (Es : skipn (first + k) l = skipn k (skipn first l))
    by (rewrite skipn_skipn; f_equal; lia).
  split; [|split; [reflexivity|split; [lia|split]]].
  - intros fuel Hf. specialize (Hrun (firstn first l) fuel Hf).
    rewrite firstn_skipn, firstn_length_le in Hrun by exact Hwf. exact Hrun.
  - exists (firstn k (skipn first l)). rewrite Es. now rewrite firstn_skipn.
  - rewrite Es. exact Hlate.
Qed.

(** Whatever the order of the references: a control that is called has a
    scheduled reference that is due. *)
Lemma UpdateAnimations_log_sound (thisTime : Z) :
  forall (fuel : nat) (g g' : t) (log : list CtlPtr),
    UpdateAnimations UpdateAnimation fuel thisTime g = Ok (g', log) ->
    forall ctl, In ctl log ->
      ctl <> NULL /\
      exists e, In e (live g) /\ ctlanim e = ctl /\ time e <= thisTime.
Proof.
  induction fuel as [|fuel IH]; intros g g' log H ctl Hin; [discriminate|].
  rewrite UpdateAnimations_S in H.
  destruct (Nat.eqb (first_animation g) (List.length (animations g)));
    [inversion H; subst; destruct Hin|].
  destruct (nth_error (animations g) (first_animation g)) as [anim|] eqn:En;
    [|discriminate].
  assert (Hnext : forall e, In e (live (mk (S (first_animation g)) (animations g))) ->
                            In e (live g)).
  { unfold live. cbn [first_animation animations]. intros e He.
    apply In_nth_error in He. destruct He as [m Hm].
    rewrite nth_error_skipn in Hm.
    apply nth_error_In with (n := S m).
    rewrite nth_error_skipn. rewrite <- Hm. f_equal. lia. }
  assert (Hanim : In anim (live g)).
  { unfold live. apply nth_error_In with (n := O).
    rewrite nth_error_skipn, Nat.add_0_r. exact En. }
  destruct (Nat.eqb_spec (ctlanim anim) NULL) as [Enull|Enull].
  - destruct (IH _ _ _ H ctl Hin) as [Hnn [e [He Hrest]]].
    split; [exact Hnn|]. exists e. split; [now apply Hnext|exact Hrest].
  - destruct (Z.leb_spec (time anim) thisTime) as [Hdue|Hlater].
    + destruct (UpdateAnimations UpdateAnimation fuel thisTime _)
        as [[g1 log1]| |] eqn:Er; simpl in H; try discriminate.
      inversion H; subst. destruct Hin as [<-|Hin].
      * split; [exact Enull|]. exists anim. auto.
      * destruct (IH _ _ _ Er ctl Hin) as [Hnn [e [He Hrest]]].
        split; [exact Hnn|]. exists e. split; [now apply Hnext|exact Hrest].
    + inversion H; subst. destruct Hin.
Qed.

(** X20. After [RemoveAnimation] of a control, [UpdateAnimations] does not
    call it, at whatever time. *)
Theorem cancelled_animation_not_run (ctl : CtlPtr) (fuel : nat) (thisTime : Z)
    (g g1 g2 : t) (log : list CtlPtr) :
  RemoveAnimation ctl g = Ok g1 ->
  UpdateAnimations UpdateAnimation fuel thisTime g1 = Ok (g2, log) ->
  ~ In ctl log.
Proof.
  intros Hr Hu Hin.
  destruct (UpdateAnimations_log_sound _ _ _ _ _ Hu ctl Hin) as [Hnn [e [He [Hc _]]]].
  assert (Hwf : wf g).
  { unfold RemoveAnimation in Hr. unfold wf.
    destruct (Nat.ltb_spec (List.length (animations g)) (first_animation g));
      [discriminate|assumption]. }
  destruct (RemoveAnimation_live ctl g Hwf) as [g1' [E [_ [Hl _]]]].
  rewrite Hr in E. inversion E; subst g1'.
  rewrite Hl in He. apply in_map_iff in He. destruct He as [e0 [<- _]].
  unfold cancel in Hc. destruct (Nat.eqb_spec (ctlanim e0) ctl); simpl in Hc; auto.
Qed.

(** X21. An animation added with a delay is run by an update at or after its
    time (when the sum of clock and delay is an [unsigned long]), and is
    not run by an update before it unless the control was scheduled
    already. *)
Theorem scheduled_animation_runs_when_due (ctl : CtlPtr) (d now later : Z) (g : t) :
  wf g -> time_ordered (live g) -> ctl <> NULL ->
  0 <= d + now <= ULONG_MAX ->
  exists g1 g2 log,
    AddAnimation ULONG_MAX ctl d now g = Ok g1 /\
    (forall fuel, (S (List.length (live g)) < fuel)%nat ->
       UpdateAnimations UpdateAnimation fuel later g1 = Ok (g2, log)) /\
    (d + now <= later -> In ctl log) /\
    (later < d + now -> (forall e, In e (live g) -> ctlanim e <> ctl) ->
     ~ In ctl log).
Proof.
  intros Hwf Hord Hnn Hrange.
  destruct (AddAnimation_live ULONG_MAX ctl d now g Hwf) as [g1 [E [Hl [Hwf1 _]]]].
  rewrite Z.mod_small in Hl by lia.
  assert (Hord1 : time_ordered (live g1))
    by (rewrite Hl; now apply insert_by_time_ordered).
  destruct (UpdateAnimations_ordered_run later g1 Hwf1 Hord1) as [g2 Hrun].
  exists g1, g2, (map ctlanim (filter (due later) (live g1))).
  split; [exact E|]. split; [|split].
  - intros fuel Hf. apply Hrun. rewrite Hl, insert_by_time_length. exact Hf.
  - intro Hdue. apply in_map_iff. exists (mkRef ctl (d + now)). split; [reflexivity|].
    apply filter_In. split.
    + rewrite Hl. apply In_insert_by_time. now left.
    + unfold due. simpl. apply andb_true_iff. split.
      * apply negb_true_iff. now apply Nat.eqb_neq.
      * now apply Z.leb_le.
  - intros Hearly Hfresh Hin. apply in_map_iff in Hin.
    destruct Hin as [e [Hc He]]. apply filter_In in He. destruct He as [He Hd].
    rewrite Hl in He. apply In_insert_by_time in He. destruct He as [->|He].
    + unfold due in Hd. simpl in Hd. apply andb_true_iff in Hd.
      destruct Hd as [_ Hd]. apply Z.leb_le in Hd. lia.
    + exact (Hfresh e He Hc).
Qed.
End TimerUpdates.

(* ================================================================== *)
(** * Destroying a container *)

Section Destructor.
Import TextContainer Layout Scenario.

Lemma delete_spans_unrendered (hp : Heap) (p : SpanPtr) :
  p <> NULL -> TextSpan.spanSprite (hp p) = None ->
  forall (l deleted : list SpanPtr), In p l -> delete_spans hp l deleted = Abort.
Proof.
  intros Hnn Hnone. induction l as [|q l IH]; intros deleted Hin; [destruct Hin|].
  simpl. destruct (Nat.eqb_spec q NULL) as [Eq|Eq].
  - destruct Hin as [->|Hin]; [contradiction|auto].
  - destruct (existsb (Nat.eqb q) deleted); [reflexivity|].
    unfold destroy_span. destruct Hin as [->|Hin].
    + now rewrite Hnone.
    + destruct (TextSpan.spanSprite (hp q)); simpl; auto.
Qed.



(** The layout leaves a span object alone whose frame is not empty. *)
Lemma layout_spans_keeps_sized (fuel : nat) :
  forall (rest : list SpanPtr) (drawPoint : Point.t) (hp hp' : Heap)
         (c c' : TextContainer.t),
    layout_spans fuel rest drawPoint hp c = Ok (hp', c') ->
    forall p, Size.IsEmpty (TextSpan.frame (hp p)) = false -> hp' p = hp p.
Proof.
  induction rest as [|span rest IH]; intros drawPoint hp hp' c c' H p Hp; simpl in H.
  - now inversion H.
  - assert (E : heap_set hp span (fst (TextSpan.SpanFrame (hp span))) p = hp p).
    { unfold heap_set. destruct (Nat.eqb_spec p span) as [->|_]; [|reflexivity].
      now rewrite SpanFrame_fixed. }
    destruct (TextSpan.SpanFrame (hp span)) as [s' spanFrame]. simpl in E.
    destruct (avoid_excluded fuel c spanFrame drawPoint Region.zero None)
      as [[q r]| |]; simpl in H; try discriminate.
    unfold AddExclusionRect in H.
    destruct (Size.IsEmpty (Region.Dimensions r)); simpl in H; try discriminate.
    rewrite (IH _ _ _ _ _ H p); rewrite E; auto.
Qed.

Lemma LayoutSpansStartingAt_keeps_sized (fuel it : nat) (hp hp' : Heap)
    (c c' : TextContainer.t) :
  LayoutSpansStartingAt fuel it hp c = Ok (hp', c') ->
  forall p, Size.IsEmpty (TextSpan.frame (hp p)) = false -> hp' p = hp p.
Proof.
  unfold LayoutSpansStartingAt. intros H p Hp.
  destruct (nth_error (spans c) it) as [span|]; [|discriminate].
  destruct it as [|before].
  - assert (E : heap_set hp span (fst (TextSpan.SpanFrame (hp span))) p = hp p).
    { unfold heap_set. destruct (Nat.eqb_spec p span) as [->|_]; [|reflexivity].
      now rewrite SpanFrame_fixed. }
    destruct (TextSpan.SpanFrame (hp span)) as [s' f]. simpl in E.
    rewrite (layout_spans_keeps_sized _ _ _ _ _ _ _ H p); rewrite E; auto.
  - destruct (nth_error (spans c) before) as [prev|]; [|discriminate].
    destruct (SpanLayout.index (layout c) prev) as [rgn lay].
    exact (layout_spans_keeps_sized _ _ _ _ _ _ _ H p Hp).
Qed.

Lemma run_keeps_sized (fuel : nat) (ops : list op) :
  forall st st' : Heap * TextContainer.t,
    run fuel ops st = Ok st' ->
    forall p, Size.IsEmpty (TextSpan.frame (fst st p)) = false ->
              fst st' p = fst st p.
Proof.
  induction ops as [|o ops IH]; intros st st' H p Hp; simpl in H.
  - now inversion H.
  - destruct (step fuel o st) as [[hp1 c1]| |] eqn:Es; simpl in H; try discriminate.
    assert (E : hp1 p = fst st p).
    { destruct st as [hp c]. simpl in *.
      destruct o as [span|newSpan existing|span|rect]; simpl in Es.
      - exact (LayoutSpansStartingAt_keeps_sized _ _ _ _ _ _ Es p Hp).
      - unfold InsertSpanAfter in Es. destruct (Nat.eqb existing NULL).
        + now inversion Es.
        + destruct (index_of existing (spans c)) as [i|]; [|discriminate].
          exact (LayoutSpansStartingAt_keeps_sized _ _ _ _ _ _ Es p Hp).
      - unfold RemoveSpan in Es.
        destruct (index_of span (spans c)) as [[|before]|]; simpl in Es;
          try discriminate.
        + destruct (LayoutSpansStartingAt fuel before hp
                      (with_spans c (erase_at (S before) (spans c))))
            as [[hp2 c2]| |] eqn:El; simpl in Es; try discriminate.
          inversion Es; subst.
          exact (LayoutSpansStartingAt_keeps_sized _ _ _ _ _ _ El p Hp).
        + now inversion Es.
      - destruct (AddExclusionRect rect c); simpl in Es; try discriminate.
        now inversion Es. }
    rewrite (IH _ _ H p); simpl; rewrite E; auto.
Qed.

(** X14. The mutators of a container never render a span whose frame is set:
    after any run of them, a container that holds such a span that has no
    sprite yet cannot be destroyed, for the destructor of the span
    releases the sprite through a null pointer. *)
Theorem destroy_before_render_aborts (fuel : nat) (ops : list op) (span : SpanPtr)
    (hp hp' : Heap) (c c' : TextContainer.t) :
  run fuel ops (hp, c) = Ok (hp', c') ->
  In span (spans c') -> span <> NULL ->
  TextSpan.spanSprite (hp span) = None ->
  Size.IsEmpty (TextSpan.frame (hp span)) = false ->
  destroy hp' c' = Abort.
Proof.
  intros H Hin Hnn Hnone Hsized. unfold destroy.
  apply delete_spans_unrendered with span; auto.
  pose proof (run_keeps_sized _ _ _ _ H span Hsized) as E. simpl in E.
  now rewrite E.
Qed.

Lemma destroy_before_render_aborts_witness :
  exists hp' c',
    run fuel0 [OpAppendSpan 1%nat] (heap0, container0) = Ok (hp', c') /\
    destroy hp' c' = Abort.
Proof.
  eexists. eexists. split; [vm_compute; reflexivity|].
  eapply (destroy_before_render_aborts fuel0 [OpAppendSpan 1%nat] 1%nat heap0 _
            container0);
    [vm_compute; reflexivity|simpl; auto|discriminate|reflexivity|reflexivity].
Defined.


End Destructor.

(* ================================================================== *)
(** * GlobalTimer: instances *)

Section TimerInstances.
Import GlobalTimer.

Ltac timer0_ready :=
  first [ unfold wf; simpl; lia
        | simpl; repeat split; intros ? ?;
          repeat match goal with H : _ \/ _ |- _ => destruct H end;
          subst; simpl; try lia; try contradiction ].

Lemma AddAnimation_keeps_queue_witness :
  exists g', AddAnimation ULONG_MAX_32 9%nat 5 10 timer0 = Ok g' /\
    wf g' /\ time_ordered (live g') /\
    List.length (live g') = S (List.length (live timer0)) /\
    List.length (animations g') =
      (if Nat.eqb (first_animation timer0) 0 then S (List.length (animations timer0))
       else List.length (animations timer0)).
Proof. apply AddAnimation_keeps_queue; timer0_ready. Defined.

Lemma AddAnimation_position_witness :
  exists g' l1 l2,
    AddAnimation ULONG_MAX_32 9%nat 0 10 timer0 = Ok g' /\
    live timer0 = l1 ++ l2 /\
    live g' = l1 ++ mkRef 9%nat ((0 + 10) mod (ULONG_MAX_32 + 1)) :: l2 /\
    (forall e, In e l1 -> time e <= (0 + 10) mod (ULONG_MAX_32 + 1)) /\
    (forall e, In e l2 -> (0 + 10) mod (ULONG_MAX_32 + 1) < time e).
Proof. apply AddAnimation_position; timer0_ready. Defined.

Lemma RemoveAnimation_cancels_witness :
  exists g', RemoveAnimation 7%nat timer0 = Ok g' /\
    first_animation g' = first_animation timer0 /\
    map time (animations g') = map time (animations timer0) /\
    (7%nat <> NULL -> forall e, In e (live g') -> ctlanim e <> 7%nat) /\
    (forall i e, nth_error (live timer0) i = Some e -> ctlanim e <> 7%nat ->
                 nth_error (live g') i = Some e) /\
    (time_ordered (live timer0) -> time_ordered (live g')).
Proof. apply RemoveAnimation_cancels; timer0_ready. Defined.

Lemma UpdateAnimations_runs_due_witness :
  exists g',
    (forall fuel, (List.length (live timer0) < fuel)%nat ->
       UpdateAnimations no_callback fuel 15 timer0
       = Ok (g', map ctlanim (filter (due 15) (live timer0)))) /\
    animations g' = animations timer0 /\ wf g' /\
    (exists passed, live timer0 = passed ++ live g') /\
    (forall e, In e (live g') -> 15 < time e).
Proof.
  apply UpdateAnimations_runs_due; [intros ctl g; reflexivity|..]; timer0_ready.
Defined.

Lemma cancelled_animation_not_run_witness :
  ~ In 7%nat [8%nat].
Proof.
  apply (cancelled_animation_not_run no_callback (fun _ _ => eq_refl)
           7%nat 5%nat 30 timer0
           (mk 1 [mkRef 0%nat 0; mkRef NULL 10; mkRef 8%nat 20])
           (mk 3 [mkRef 0%nat 0; mkRef NULL 10; mkRef 8%nat 20]));
    reflexivity.
Defined.

Lemma scheduled_animation_runs_when_due_witness :
  exists g1 g2 log,
    AddAnimation ULONG_MAX_32 9%nat 5 10 timer0 = Ok g1 /\
    (forall fuel, (S (List.length (live timer0)) < fuel)%nat ->
       UpdateAnimations no_callback fuel 15 g1 = Ok (g2, log)) /\
    (5 + 10 <= 15 -> In 9%nat log) /\
    (15 < 5 + 10 -> (forall e, In e (live timer0) -> ctlanim e <> 9%nat) ->
     ~ In 9%nat log).
Proof.
  apply scheduled_animation_runs_when_due;
    [intros ctl g; reflexivity|..];
    first [discriminate | unfold ULONG_MAX_32; lia | timer0_ready].
Defined.
End TimerInstances.
